(** * Token lists of the Safe payroll app

    A verification development for the token-list hook of the app
    ([tokenMap], [fetchTokenList], [useTokenList], [getTokenInfo]).

    The hook indexes ERC-20 token metadata by checksummed address.  What
    the file imports (the checksum of the [ethers] library, the bundled
    token lists, the network, the contracts) is a parameter of the
    development, the class [Imports]; the concrete examples run in the
    environment of module [Example], whose checksum is the EIP-55 checksum
    of module [Ethers]. *)

From Stdlib Require Import ZArith List Ascii String Bool Lia.
From stdpp Require Import gmap strings list fin_maps.
Import ListNotations.

Local Open Scope Z_scope.

(* ===================================================================== *)
(** ** Keccak-256 *)
(* ===================================================================== *)

(** The hash under the EIP-55 address checksum: the Keccak-f[1600]
    permutation on 25 lanes of 64 bits, in a sponge of rate 136 bytes with
    the original Keccak padding (0x01 .. 0x80).  Lanes are [Z] in
    [0, 2^64); lane (x, y) sits at index [x + 5 * y]. *)
Module Keccak.

Definition mask64 : Z := 0xFFFFFFFFFFFFFFFF.

Definition rotl64 (x : Z) (n : Z) : Z :=
  Z.land (Z.lor (Z.shiftl x n) (Z.shiftr x (64 - n))) mask64.

Definition not64 (x : Z) : Z := Z.lxor x mask64.

Definition RC : list Z :=
  [ 0x0000000000000001; 0x0000000000008082; 0x800000000000808A;
    0x8000000080008000; 0x000000000000808B; 0x0000000080000001;
    0x8000000080008081; 0x8000000000008009; 0x000000000000008A;
    0x0000000000000088; 0x0000000080008009; 0x000000008000000A;
    0x000000008000808B; 0x800000000000008B; 0x8000000000008089;
    0x8000000000008003; 0x8000000000008002; 0x8000000000000080;
    0x000000000000800A; 0x800000008000000A; 0x8000000080008081;
    0x8000000000008080; 0x0000000080000001; 0x8000000080008008 ].

(** Rotation offsets, row by row ([y] = 0 first). *)
Definition ROT : list Z :=
  [ 0;  1; 62; 28; 27;
   36; 44;  6; 55; 20;
    3; 10; 43; 25; 39;
   41; 45; 15; 21;  8;
   18;  2; 61; 56; 14 ].

Definition lane (st : list Z) (x y : nat) : Z :=
  nth (x mod 5 + 5 * (y mod 5))%nat st 0.

Definition tabulate (f : nat -> nat -> Z) : list Z :=
  map (fun i => f (i mod 5)%nat (i / 5)%nat) (seq 0 25).

Definition theta (st : list Z) : list Z :=
  let C := fun x =>
    Z.lxor (lane st x 0) (Z.lxor (lane st x 1) (Z.lxor (lane st x 2)
      (Z.lxor (lane st x 3) (lane st x 4)))) in
  let Cs := map C (seq 0 5) in
  let c := fun x => nth (x mod 5)%nat Cs 0 in
  tabulate (fun x y =>
    Z.lxor (lane st x y) (Z.lxor (c (x + 4)%nat) (rotl64 (c (x + 1)%nat) 1))).

(** [B[y, 2x + 3y] = rot (A[x, y], r[x, y])], read from the target side:
    the lane that lands on (X, Y) comes from (X + 3Y, X). *)
Definition rho_pi (st : list Z) : list Z :=
  tabulate (fun X Y =>
    let x := ((X + 3 * Y) mod 5)%nat in
    let y := X in
    rotl64 (lane st x y) (nth (x + 5 * y)%nat ROT 0)).

Definition chi (st : list Z) : list Z :=
  tabulate (fun x y =>
    Z.lxor (lane st x y)
           (Z.land (not64 (lane st (x + 1) y)) (lane st (x + 2) y))).

Definition iota (rc : Z) (st : list Z) : list Z :=
  match st with
  | a :: rest => Z.lxor a rc :: rest
  | [] => []
  end.

Definition round (st : list Z) (rc : Z) : list Z :=
  iota rc (chi (rho_pi (theta st))).

Definition keccak_f (st : list Z) : list Z := fold_left round RC st.

(** Little-endian packing of bytes into lanes and back. *)
Fixpoint le_word (bs : list Z) : Z :=
  match bs with
  | [] => 0
  | b :: rest => Z.lor b (Z.shiftl (le_word rest) 8)
  end.

Fixpoint chunks {A} (fuel : nat) (n : nat) (l : list A) : list (list A) :=
  match fuel, l with
  | _, [] => []
  | O, _ => []
  | S fuel', _ => firstn n l :: chunks fuel' n (skipn n l)
  end.

Definition le_bytes (w : Z) : list Z :=
  map (fun i => Z.land (Z.shiftr w (8 * Z.of_nat i)) 0xFF) (seq 0 8).

Definition rate : nat := 136.

(** pad10*1 with the Keccak domain byte 0x01. *)
Definition pad (msg : list Z) : list Z :=
  let q := (rate - (length msg mod rate))%nat in
  if (q =? 1)%nat then msg ++ [0x81]
  else msg ++ [0x01] ++ repeat 0 (q - 2) ++ [0x80].

Fixpoint xor_lanes (st block : list Z) : list Z :=
  match st, block with
  | s :: st', b :: block' => Z.lxor s b :: xor_lanes st' block'
  | _, [] => st
  | [], _ => []
  end.

Definition absorb (st : list Z) (block : list Z) : list Z :=
  keccak_f (xor_lanes st (map le_word (chunks 17 8 block))).

Definition keccak256 (msg : list Z) : list Z :=
  let padded := pad msg in
  let blocks := chunks (length padded) rate padded in
  let st := fold_left absorb blocks (repeat 0 25) in
  flat_map le_bytes (firstn 4 st).

End Keccak.

(* ===================================================================== *)
(** ** The address checksum of [ethers] *)
(* ===================================================================== *)

(** [utils.getAddress] on hexadecimal strings: an optional [0x] followed by
    forty hex digits is accepted, normalised to the EIP-55 mixed-case form,
    and rejected when it is already mixed-case with a different casing.
    Strings are handled as lists of characters.  The library's second
    branch (ICAP strings, which start with [XE]) is left out: such strings
    are rejected here. *)
Module Ethers.

Definition code (c : ascii) : Z := Z.of_N (N_of_ascii c).

Definition within (lo hi : Z) (c : ascii) : bool :=
  (lo <=? code c) && (code c <=? hi).

Definition isDigit : ascii -> bool := within 48 57.
Definition isLowerAF : ascii -> bool := within 97 102.
Definition isUpperAF : ascii -> bool := within 65 70.

Definition isHexChar (c : ascii) : bool :=
  isDigit c || isLowerAF c || isUpperAF c.

Definition toLowerCase (c : ascii) : ascii :=
  if within 65 90 c then ascii_of_N (Z.to_N (code c + 32)) else c.

Definition toUpperCase (c : ascii) : ascii :=
  if within 97 122 c then ascii_of_N (Z.to_N (code c - 32)) else c.

Definition nibbles (hashed : list Z) : list Z :=
  flat_map (fun h => [Z.shiftr h 4; Z.land h 0x0f]) hashed.

(** The loop of [getChecksumAddress]: a character is upper-cased when
    its nibble of the hash is 8 or more. *)
Fixpoint checksumCase (chars : list ascii) (nibs : list Z) : list ascii :=
  match chars, nibs with
  | c :: chars', n :: nibs' =>
      (if 8 <=? n then toUpperCase c else c) :: checksumCase chars' nibs'
  | _, _ => chars
  end.

(** [getChecksumAddress], on the forty characters after the prefix. *)
Definition getChecksumAddress (body : list ascii) : list ascii :=
  let chars := map toLowerCase body in
  let hashed := Keccak.keccak256 (map code chars) in
  "0"%char :: "x"%char :: checksumCase chars (nibbles hashed).

Definition has0x (cs : list ascii) : bool :=
  match cs with
  | "0"%char :: "x"%char :: _ => true
  | _ => false
  end.

(** [/([A-F].*[a-f])|([a-f].*[A-F])/]: a letter of each case occurs. *)
Definition mixedCase (cs : list ascii) : bool :=
  existsb isUpperAF cs && existsb isLowerAF cs.

Definition ascii_list_eqb (a b : list ascii) : bool :=
  String.eqb (string_of_list_ascii a) (string_of_list_ascii b).

Definition getAddressChars (cs : list ascii) : option (list ascii) :=
  let body := if has0x cs then skipn 2 cs else cs in
  if (length body =? 40)%nat && forallb isHexChar body then
    let address := "0"%char :: "x"%char :: body in
    let result := getChecksumAddress body in
    if mixedCase address && negb (ascii_list_eqb result address)
    then None
    else Some result
  else None.

Definition getAddress (address : string) : option string :=
  option_map string_of_list_ascii
             (getAddressChars (list_ascii_of_string address)).

End Ethers.

(* ===================================================================== *)
(** ** Data model *)
(* ===================================================================== *)

(** [TokenInfo] of [@uniswap/token-lists]: the element type of a token
    list.  ([extensions], free-form JSON, is not represented.) *)
Module TokenInfo.
Record t := mk {
  chainId : Z;
  address : string;
  name : string;
  decimals : Z;
  symbol : string;
  logoURI : option string;
  tags : option (list string)
}.
End TokenInfo.

(** [MinimalTokenInfo]; an absent optional field is [None]. *)
Record MinimalTokenInfo := {
  decimals : Z;
  address : string;
  symbol : option string;
  logoURI : option string
}.

(** A [TokenInfo] stored where a [MinimalTokenInfo] is expected: the
    fields that [MinimalTokenInfo] declares. *)
Definition minimal (token : TokenInfo.t) : MinimalTokenInfo :=
  {| decimals := TokenInfo.decimals token;
     address := TokenInfo.address token;
     symbol := Some (TokenInfo.symbol token);
     logoURI := TokenInfo.logoURI token |}.

(** [TokenMap = Map<string | null, MinimalTokenInfo>]; the key [null] is
    [None]. *)
Abbreviation TokenMap := (gmap (option string) MinimalTokenInfo).

Definition networkMap : gmap Z string :=
  list_to_map [(1, "mainnet"%string); (4, "rinkeby"%string); (100, "xdai"%string)].

(* ===================================================================== *)
(** ** Exceptions, effects and the world *)
(* ===================================================================== *)

Inductive exn :=
| Error (message : string)          (* [new Error(message)] *)
| InvalidAddress (value : string)   (* thrown by [utils.getAddress] *)
| Rejected (reason : string).       (* a promise rejected by the environment *)

Inductive result (A : Type) :=
| Ok (a : A)
| Throw (e : exn).
Arguments Ok {A} a.
Arguments Throw {A} e.

(** What the code does to the outside. *)
Inductive Event :=
| Fetch (url : string)
| ConsoleError (message : string)
| CallDecimals (tokenAddress : string)
| CallSymbol (tokenAddress : string).

(** The [Map] object that the token-info provider closes over, and the
    trace of outside effects so far.  A call runs to its end on the world
    it is given: calls are not interleaved at their [await]s. *)
Record World := {
  tokenList : TokenMap;
  log : list Event
}.

Definition M (A : Type) : Type := World -> result A * World.

Definition ret {A} (a : A) : M A := fun w => (Ok a, w).

Definition throw {A} (e : exn) : M A := fun w => (Throw e, w).

Definition bind {A B} (m : M A) (k : A -> M B) : M B :=
  fun w =>
    match m w with
    | (Ok a, w') => k a w'
    | (Throw e, w') => (Throw e, w')
    end.

(** [promise.catch(handler)] *)
Definition catch {A} (m : M A) (handler : exn -> M A) : M A :=
  fun w =>
    match m w with
    | (Ok a, w') => (Ok a, w')
    | (Throw e, w') => handler e w'
    end.

Definition lift {A} (r : result A) : M A := fun w => (r, w).

Definition emit (e : Event) : M unit :=
  fun w => (Ok tt, {| tokenList := tokenList w; log := log w ++ [e] |}).

Definition fmap {A B} (f : A -> B) (m : M A) : M B :=
  bind m (fun a => ret (f a)).

Notation "'let!' x ':=' m 'in' k" := (bind m (fun x => k))
  (at level 10, x name, m at level 100, k at level 200).
Notation "'do!' m 'in' k" := (bind m (fun _ => k))
  (at level 10, m at level 100, k at level 200).

(** [tokenList.has], [tokenList.get] and [tokenList.set] on the captured
    map. *)
Definition Map_has (key : option string) : M bool :=
  fun w => (Ok (bool_decide (is_Some (tokenList w !! key))), w).

Definition Map_get (key : option string) : M (option MinimalTokenInfo) :=
  fun w => (Ok (tokenList w !! key), w).

Definition Map_set (key : option string) (value : MinimalTokenInfo) : M unit :=
  fun w => (Ok tt, {| tokenList := <[key := value]> (tokenList w); log := log w |}).

(** An ERC-20 contract as the code sees it: what its two calls settle to. *)
Module ERC20.
Record t := mk {
  decimals : result Z;
  symbol : result string
}.
End ERC20.

(** What the module imports and does not define. *)
Class Imports := {
  (** [utils.getAddress]; [None] when it throws. *)
  getAddress : string -> option string;
  (** [(await (await fetch(url)).json()).tokens] *)
  fetchTokens : string -> result (list TokenInfo.t);
  (** [../static/rinkebyTokens.json] *)
  rinkeby : list TokenInfo.t;
  (** [xdaiTokens.tokens] of [honeyswap-default-token-list] *)
  xdaiTokens : list TokenInfo.t;
  (** [erc20Instance(tokenAddress, web3Provider)] for the provider of the
      enclosing hook; making the instance does not throw, its calls may
      be rejected *)
  erc20Instance : string -> ERC20.t
}.

(* ===================================================================== *)
(** ** The hook *)
(* ===================================================================== *)

Section Hook.
Context `{Imports}.

Fixpoint tokenMap_loop (tokens : list TokenInfo.t) (res : TokenMap)
  : result TokenMap :=
  match tokens with
  | [] => Ok res
  | token :: rest =>
      match getAddress (TokenInfo.address token) with
      | Some key => tokenMap_loop rest (<[Some key := minimal token]> res)
      | None => Throw (InvalidAddress (TokenInfo.address token))
      end
  end.

Definition tokenMap (tokens : list TokenInfo.t) : result TokenMap :=
  tokenMap_loop tokens ∅.

(** [`${value}`] for a value that may be [undefined]. *)
Definition interpolate (value : option string) : string :=
  match value with
  | Some s => s
  | None => "undefined"
  end.

Definition unimplemented (chainId : Z) : string :=
  ("Unimplemented token list for " +:+ interpolate (networkMap !! chainId)
     +:+ " network")%string.

Definition mainnetTokenURL : string :=
  "https://tokens.coingecko.com/uniswap/all.json".

Definition fetch (url : string) : M (list TokenInfo.t) :=
  do! emit (Fetch url) in lift (fetchTokens url).

Definition console_error (message : string) : M unit :=
  emit (ConsoleError message).

(** [chainId] is an integer; a number that is none compares unequal to
    1, 4 and 100 as well and takes the last branch. *)
Definition fetchTokenList (chainId : Z) : M TokenMap :=
  let! tokens :=
    (if chainId =? 1 then fetch mainnetTokenURL
     else if chainId =? 4 then ret rinkeby
     else if chainId =? 100 then ret xdaiTokens
     else do! console_error (unimplemented chainId) in
          throw (Error (unimplemented chainId))) in
  lift (tokenMap tokens).

Definition call_decimals (tokenAddress : string) (c : ERC20.t) : M Z :=
  do! emit (CallDecimals tokenAddress) in lift (ERC20.decimals c).

Definition call_symbol (tokenAddress : string) (c : ERC20.t) : M string :=
  do! emit (CallSymbol tokenAddress) in lift (ERC20.symbol c).

Definition getTokenInfo (tokenAddress : string) : M (option MinimalTokenInfo) :=
  let! has := Map_has (Some tokenAddress) in
  if (has : bool) then Map_get (Some tokenAddress)
  else
    let tokenContract := erc20Instance tokenAddress in
    let! decimals := catch (fmap Some (call_decimals tokenAddress tokenContract))
                           (fun reason => ret None) in
    let! symbol := catch (fmap Some (call_symbol tokenAddress tokenContract))
                         (fun reason => ret None) in
    match decimals with
    | Some decimals =>
        do! Map_set (Some tokenAddress)
              {| decimals := decimals; address := tokenAddress;
                 symbol := symbol; logoURI := None |} in
        ret (Some {| decimals := decimals; address := tokenAddress;
                     symbol := symbol; logoURI := None |})
    | None => ret None
    end.

(** *** Vocabulary of the statements *)

(** [promise.catch((reason) => undefined)], as a value. *)
Definition orUndefined {A} (r : result A) : option A :=
  match r with
  | Ok a => Some a
  | Throw _ => None
  end.

(** The entry that [getTokenInfo] makes from the answers of a contract. *)
Definition resolved (tokenAddress : string) (d : Z) : MinimalTokenInfo :=
  {| decimals := d;
     address := tokenAddress;
     symbol := orUndefined (ERC20.symbol (erc20Instance tokenAddress));
     logoURI := None |}.

(** [utils.getAddress] accepts the address of the token. *)
Definition accepted (token : TokenInfo.t) : Prop :=
  is_Some (getAddress (TokenInfo.address token)).

(** A key is a checksummed address: a string that the checksum returns
    as it is. *)
Definition checksummed (key : option string) : Prop :=
  exists a, key = Some a /\ getAddress a = Some a.

Definition keys_checksummed (m : TokenMap) : Prop :=
  forall key entry, m !! key = Some entry -> checksummed key.

(** The world after two contract calls for [tokenAddress]. *)
Definition queried (tokenAddress : string) (w : World) : list Event :=
  log w ++ [CallDecimals tokenAddress; CallSymbol tokenAddress].

End Hook.

(* ===================================================================== *)
(** ** [useTokenList] as a transition system *)
(* ===================================================================== *)

(** One run of the effect: its [isMounted] variable, the promise that
    [fetchTokenList(safe.chainId)] returned, and whether that promise has
    settled (a promise settles once). *)
Record Effect := {
  isMounted : bool;
  promise : result TokenMap;
  settled : bool
}.

(** The component that uses the hook: its two state variables, the value
    of the dependency array [[safe.chainId]] at the last run of the effect,
    and the runs of the effect, oldest first.  [updates] counts the calls
    of [setTokenList]. *)
Record Component := {
  tokenList_state : TokenMap;
  isLoading : bool;
  deps : option Z;
  effects : list Effect;
  updates : nat
}.

Definition initial : Component :=
  {| tokenList_state := ∅; isLoading := false; deps := None;
     effects := []; updates := 0 |}.

Inductive Label :=
| Render (chainId : Z)   (* a render is committed with this [safe.chainId] *)
| Settle (i : nat)       (* the promise of the [i]-th run settles *)
| Unmount.               (* the component is unmounted *)

Definition pristine : World := {| tokenList := ∅; log := [] |}.

Section UseTokenList.
Context `{Imports}.

(** [function callback() { isMounted = false; }] *)
Definition callback (e : Effect) : Effect :=
  {| isMounted := false; promise := promise e; settled := settled e |}.

(** The cleanup that is due is that of the latest run. *)
Definition cleanup (s : Component) : Component :=
  {| tokenList_state := tokenList_state s;
     isLoading := isLoading s;
     deps := deps s;
     effects := alter callback (pred (length (effects s))) (effects s);
     updates := updates s |}.

(** The body of the effect. *)
Definition effect (chainId : Z) (s : Component) : Component :=
  {| tokenList_state := tokenList_state s;
     isLoading := true;
     deps := Some chainId;
     effects := effects s ++
       [ {| isMounted := true;
            promise := fst (fetchTokenList chainId pristine);
            settled := false |} ];
     updates := updates s |}.

(** The effect runs when the dependency array changed, after the
    cleanup of the previous run. *)
Definition render (chainId : Z) (s : Component) : Component :=
  if decide (deps s = Some chainId) then s
  else effect chainId (cleanup s).

(** [(result) => { if (isMounted) { ... } }] of the [i]-th run. *)
Definition then_callback (e : Effect) (result : TokenMap) (s : Component)
  : Component :=
  if isMounted e then
    {| tokenList_state := result;
       isLoading := false;
       deps := deps s;
       effects := effects s;
       updates := S (updates s) |}
  else s.

Definition mark_settled (i : nat) (s : Component) : Component :=
  {| tokenList_state := tokenList_state s;
     isLoading := isLoading s;
     deps := deps s;
     effects :=
       alter (fun e => {| isMounted := isMounted e; promise := promise e;
                          settled := true |}) i (effects s);
     updates := updates s |}.

(** The promise of the [i]-th run settles: fulfilled, its [then]
    callback runs; rejected, nothing handles it. *)
Definition settle (i : nat) (s : Component) : Component :=
  match effects s !! i with
  | Some e =>
      if settled e then s
      else
        match promise e with
        | Ok result => then_callback e result (mark_settled i s)
        | Throw _ => mark_settled i s
        end
  | None => s
  end.

Definition step (s : Component) (l : Label) : Component :=
  match l with
  | Render chainId => render chainId s
  | Settle i => settle i s
  | Unmount => cleanup s
  end.

Definition run (s : Component) (trace : list Label) : Component :=
  fold_left step trace s.

(** The renders of a trace in which [safe.chainId] differs from that of
    the render before (the first render counts). *)
Fixpoint network_changes (d : option Z) (trace : list Label) : nat :=
  match trace with
  | [] => 0
  | Render chainId :: rest =>
      if decide (d = Some chainId) then network_changes d rest
      else S (network_changes (Some chainId) rest)
  | _ :: rest => network_changes d rest
  end.

(** The cleanup of the [i]-th run has been called. *)
Definition cleaned (i : nat) (s : Component) : Prop :=
  exists e, effects s !! i = Some e /\ isMounted e = false.

(** The runs whose promise has settled. *)
Fixpoint count_settled (es : list Effect) : nat :=
  match es with
  | [] => 0
  | e :: rest => (if settled e then 1 else 0) + count_settled rest
  end.

(** The chain id of the latest render of a trace. *)
Fixpoint current_chain (d : option Z) (trace : list Label) : option Z :=
  match trace with
  | [] => d
  | Render chainId :: rest => current_chain (Some chainId) rest
  | _ :: rest => current_chain d rest
  end.

(** A label that is no render on another chain. *)
Definition keeps_network (chainId : Z) (l : Label) : Prop :=
  match l with
  | Render c => c = chainId
  | _ => True
  end.

(** A label that neither changes the chain, nor unmounts, nor settles the
    [n]-th run. *)
Definition leaves_pending (chainId : Z) (n : nat) (l : Label) : Prop :=
  match l with
  | Render c => c = chainId
  | Settle j => j <> n
  | Unmount => False
  end.

(** What holds of the component in every state that it reaches: only the
    latest run can be mounted; before the first render nothing ran and the
    list is empty; the promise of the latest run is the fetch for the
    current chain id; when not loading, the list is the one fetched for
    the current chain id; the list is empty or was fetched. *)
Definition hook_invariant (s : Component) : Prop :=
  (forall i e, effects s !! i = Some e -> isMounted e = true ->
               S i = length (effects s)) /\
  (deps s = None -> effects s = [] /\ tokenList_state s = ∅) /\
  (forall c, deps s = Some c ->
     exists e, effects s !! pred (length (effects s)) = Some e /\
               promise e = fst (fetchTokenList c pristine)) /\
  (forall c, deps s = Some c -> isLoading s = false ->
     fst (fetchTokenList c pristine) = Ok (tokenList_state s)) /\
  (tokenList_state s = ∅ \/
   exists c, fst (fetchTokenList c pristine) = Ok (tokenList_state s)).

End UseTokenList.

(* ===================================================================== *)
(** ** A concrete environment *)
(* ===================================================================== *)

Module Example.

Definition lower : string := "0x5aaeb6053f3e94c9b9a09f33669435e7ef1beaed".
Definition mixed : string := "0x5aAeb6053F3E94C9b9A09f33669435E7Ef1BeAed".
Definition other : string := "0xfB6916095ca1df60bB79Ce92cE3Ea74c37c5d359".

Definition alpha : TokenInfo.t :=
  TokenInfo.mk 4 lower "Alpha" 18 "ALP" None None.
Definition beta : TokenInfo.t :=
  TokenInfo.mk 4 mixed "Beta" 6 "BET" (Some "https://example.org/b.png"%string) None.
Definition gamma : TokenInfo.t :=
  TokenInfo.mk 100 other "Gamma" 8 "GAM" None (Some ["stable"%string]).
Definition broken : TokenInfo.t :=
  TokenInfo.mk 4 "0x5AAeb6053F3E94C9b9A09f33669435E7Ef1BeAed" "Broken" 18 "BRK" None None.

Definition imports : Imports :=
  {| getAddress := Ethers.getAddress;
     fetchTokens := fun url =>
       if String.eqb url "https://tokens.coingecko.com/uniswap/all.json"
       then Ok [gamma; beta] else Throw (Rejected "404");
     rinkeby := [alpha; beta];
     xdaiTokens := [gamma];
     erc20Instance := fun tokenAddress =>
       if String.eqb tokenAddress lower
       then ERC20.mk (Ok 18) (Throw (Rejected "call revert exception"))
       else if String.eqb tokenAddress mixed
       then ERC20.mk (Ok 18) (Ok "ALP"%string)
       else ERC20.mk (Throw (Rejected "call revert exception"))
                     (Throw (Rejected "call revert exception")) |}.

Definition empty_world : World := {| tokenList := ∅; log := [] |}.

(** A world in which the map lists [beta]. *)
Definition listed_world : World :=
  {| tokenList := {[ Some mixed := minimal beta ]}; log := [] |}.

End Example.

(* ===================================================================== *)
(** ** Facts about the checksum *)
(* ===================================================================== *)

Definition hex_digit (n : Z) : ascii :=
  nth (Z.to_nat n) (list_ascii_of_string "0123456789abcdef") "?"%char.

Definition to_hex (bs : list Z) : string :=
  string_of_list_ascii
    (flat_map (fun b => [hex_digit (Z.shiftr b 4); hex_digit (Z.land b 15)]) bs).

Definition bytes_of_string (s : string) : list Z :=
  map Ethers.code (list_ascii_of_string s).

(** The published digests of the empty message and of "abc". *)
Example keccak256_empty :
  to_hex (Keccak.keccak256 []) =
  "c5d2460186f7233c927e7db2dcc703c0e500b653ca82273b7bfad8045d85a470"%string.
Proof. vm_compute. reflexivity. Qed.

Example keccak256_abc :
  to_hex (Keccak.keccak256 (bytes_of_string "abc")) =
  "4e03657aea45a94fc7d47ba826c8d667c0d1e6e33a64a036ec44f58fa12d6c45"%string.
Proof. vm_compute. reflexivity. Qed.

(** The test addresses of EIP-55, given in lower case. *)
Example getAddress_eip55_vectors :
  map Ethers.getAddress
    [ "0x5aaeb6053f3e94c9b9a09f33669435e7ef1beaed";
      "0xfb6916095ca1df60bb79ce92ce3ea74c37c5d359";
      "0xdbf03b407c01e7cd3cbea99509d93f8dddc8c6fb";
      "0xd1220a0cf47c7b9be7a2e6ba89f429762e7b9adb";
      "0x52908400098527886e0f7030069857d2e4169ee7";
      "0xde709f2102306220921060314715629080e2fb77" ]%string
  = [ Some "0x5aAeb6053F3E94C9b9A09f33669435E7Ef1BeAed";
      Some "0xfB6916095ca1df60bB79Ce92cE3Ea74c37c5d359";
      Some "0xdbF03B407c01E7cD3CBea99509d93f8DDDC8C6FB";
      Some "0xD1220A0cf47c7B9Be7A2E6BA89F429762e7b9aDb";
      Some "0x52908400098527886E0F7030069857D2E4169EE7";
      Some "0xde709f2102306220921060314715629080e2fb77" ]%string.
Proof. vm_compute. reflexivity. Qed.

(** No prefix is accepted; a wrong mixed casing, a short string and a
    string that is no address are rejected. *)
Example getAddress_edge_cases :
  map Ethers.getAddress
    [ "5aaeb6053f3e94c9b9a09f33669435e7ef1beaed";
      "0x5AAeb6053F3E94C9b9A09f33669435E7Ef1BeAed";
      "0x5aaeb6053f3e94c9b9a09f33669435e7ef1beae";
      "DAI" ]%string
  = [ Some "0x5aAeb6053F3E94C9b9A09f33669435E7Ef1BeAed"%string; None; None; None ].
Proof. vm_compute. reflexivity. Qed.

Module EthersFacts.
Import Ethers.

Ltac by_cases_on_char c :=
  destruct c as [[] [] [] [] [] [] [] []]; vm_compute; congruence.

Lemma toLowerCase_idem (c : ascii) : toLowerCase (toLowerCase c) = toLowerCase c.
Proof. by_cases_on_char c. Qed.

Lemma toLowerCase_toUpperCase (c : ascii) :
  toLowerCase (toUpperCase c) = toLowerCase c.
Proof. by_cases_on_char c. Qed.

Lemma isHexChar_toUpperCase (c : ascii) :
  isHexChar c = true -> isHexChar (toUpperCase c) = true.
Proof. by_cases_on_char c. Qed.

Lemma isHexChar_toLowerCase (c : ascii) :
  isHexChar c = true -> isHexChar (toLowerCase c) = true.
Proof. by_cases_on_char c. Qed.

Lemma checksumCase_length (chars : list ascii) (nibs : list Z) :
  length (checksumCase chars nibs) = length chars.
Proof.
  revert nibs. induction chars as [|c chars IH]; intros [|n nibs]; simpl;
    try reflexivity.
  f_equal. apply IH.
Qed.

Lemma checksumCase_lower (chars : list ascii) (nibs : list Z) :
  map toLowerCase (checksumCase chars nibs) = map toLowerCase chars.
Proof.
  revert nibs. induction chars as [|c chars IH]; intros [|n nibs]; simpl;
    try reflexivity.
  rewrite IH. f_equal.
  destruct (8 <=? n); [apply toLowerCase_toUpperCase | reflexivity].
Qed.

Lemma checksumCase_hex (chars : list ascii) (nibs : list Z) :
  forallb isHexChar chars = true ->
  forallb isHexChar (checksumCase chars nibs) = true.
Proof.
  revert nibs. induction chars as [|c chars IH]; intros [|n nibs] Hhex;
    simpl in *; try assumption.
  apply andb_true_iff in Hhex as [Hc Hrest].
  apply andb_true_iff. split; [ | apply IH; assumption ].
  destruct (8 <=? n); [apply isHexChar_toUpperCase | ]; assumption.
Qed.

Lemma lower_hex (body : list ascii) :
  forallb isHexChar body = true ->
  forallb isHexChar (map toLowerCase body) = true.
Proof.
  induction body as [|c body IH]; simpl; [reflexivity | ].
  intros Hhex. apply andb_true_iff in Hhex as [Hc Hrest].
  apply andb_true_iff. split; [apply isHexChar_toLowerCase | apply IH];
    assumption.
Qed.

Lemma lower_lower (body : list ascii) :
  map toLowerCase (map toLowerCase body) = map toLowerCase body.
Proof.
  induction body as [|c body IH]; simpl; [reflexivity | ].
  rewrite toLowerCase_idem, IH. reflexivity.
Qed.

(** A checksummed address is a fixed point of the checksum. *)
Lemma getAddressChars_idempotent (cs r : list ascii) :
  getAddressChars cs = Some r -> getAddressChars r = Some r.
Proof.
  unfold getAddressChars.
  set (body := if has0x cs then skipn 2 cs else cs).
  destruct ((length body =? 40)%nat && forallb isHexChar body) eqn:Hshape;
    [ | discriminate ].
  apply andb_true_iff in Hshape as [Hlen Hhex].
  apply Nat.eqb_eq in Hlen.
  intros Hr.
  assert (Er : r = getChecksumAddress body).
  { destruct (mixedCase _ && negb _); congruence. }
  clear Hr. unfold getChecksumAddress in Er.
  set (low := map toLowerCase body) in *.
  set (nibs := nibbles (Keccak.keccak256 (map code low))) in *.
  subst r. cbn [has0x skipn].
  assert (Hlen' : length (checksumCase low nibs) = 40%nat).
  { rewrite checksumCase_length. unfold low. rewrite length_map. exact Hlen. }
  assert (Hhex' : forallb isHexChar (checksumCase low nibs) = true).
  { apply checksumCase_hex, lower_hex, Hhex. }
  rewrite !drop_0, Hlen', Hhex'. cbn [Nat.eqb andb].
  unfold getChecksumAddress.
  assert (Hlow : map toLowerCase low = low) by apply lower_lower.
  rewrite checksumCase_lower, !Hlow. fold nibs.
  unfold ascii_list_eqb. rewrite String.eqb_refl.
  cbn [negb]. rewrite andb_false_r. reflexivity.
Qed.

Lemma getAddress_idempotent (a c : string) :
  getAddress a = Some c -> getAddress c = Some c.
Proof.
  unfold getAddress. intros Ha.
  destruct (getAddressChars (list_ascii_of_string a)) as [r|] eqn:Hr;
    [ | discriminate ].
  simpl in Ha. injection Ha as <-.
  rewrite list_ascii_of_string_of_list_ascii.
  rewrite (getAddressChars_idempotent _ _ Hr). reflexivity.
Qed.

End EthersFacts.

(* ===================================================================== *)
(** ** Facts about [tokenMap] *)
(* ===================================================================== *)

Section TokenMapFacts.
Context `{Imports}.

Lemma tokenMap_loop_total (tokens : list TokenInfo.t) (res : TokenMap) :
  Forall accepted tokens -> exists m, tokenMap_loop tokens res = Ok m.
Proof.
  intros Hall. revert res.
  induction Hall as [|token rest [key Hkey] _ IH]; intros res; simpl.
  - eauto.
  - rewrite Hkey. apply IH.
Qed.

Lemma tokenMap_loop_accepted (tokens : list TokenInfo.t) (res m : TokenMap) :
  tokenMap_loop tokens res = Ok m -> Forall accepted tokens.
Proof.
  revert res. induction tokens as [|token rest IH]; intros res Hm; simpl in Hm.
  - constructor.
  - destruct (getAddress (TokenInfo.address token)) as [key|] eqn:Hkey;
      [ | discriminate ].
    constructor; [ unfold accepted; rewrite Hkey; eauto | eapply IH, Hm ].
Qed.

(** Every entry of the result was in the accumulator or comes from a
    token of the list, under the checksum of its address. *)
Lemma tokenMap_loop_entries (tokens : list TokenInfo.t) (res m : TokenMap) :
  tokenMap_loop tokens res = Ok m ->
  forall k v, m !! k = Some v ->
    res !! k = Some v \/
    exists token key,
      token ∈ tokens /\ v = minimal token /\
      getAddress (TokenInfo.address token) = Some key /\ k = Some key.
Proof.
  revert res. induction tokens as [|token rest IH]; intros res Hm k v Hk;
    simpl in Hm.
  - injection Hm as <-. left. exact Hk.
  - destruct (getAddress (TokenInfo.address token)) as [key|] eqn:Hkey;
      [ | discriminate ].
    destruct (IH _ Hm k v Hk) as [Hins | (t & key' & Hin & Hv & Hkey' & ->)].
    + destruct (decide (Some key = k)) as [<- | Hne].
      * rewrite lookup_insert_eq in Hins. injection Hins as <-.
        right. exists token, key.
        split; [ left | split; [ reflexivity | split; [ exact Hkey | reflexivity ] ] ].
      * rewrite lookup_insert_ne in Hins by exact Hne. left. exact Hins.
    + right. exists t, key'.
      split; [ right; exact Hin | split; [ exact Hv | split; [ exact Hkey' | reflexivity ] ] ].
Qed.

(** A key that no token of the list checksums to keeps its binding. *)
Lemma tokenMap_loop_untouched (tokens : list TokenInfo.t) (res m : TokenMap)
      (key : string) :
  tokenMap_loop tokens res = Ok m ->
  (forall t, t ∈ tokens -> getAddress (TokenInfo.address t) <> Some key) ->
  m !! Some key = res !! Some key.
Proof.
  revert res. induction tokens as [|token rest IH]; intros res Hm Hnone;
    simpl in Hm.
  - injection Hm as <-. reflexivity.
  - destruct (getAddress (TokenInfo.address token)) as [key'|] eqn:Hkey;
      [ | discriminate ].
    rewrite (IH _ Hm) by (intros t Ht; apply Hnone; right; exact Ht).
    apply lookup_insert_ne. intros [= ->].
    apply (Hnone token); [ left | exact Hkey ].
Qed.

Lemma tokenMap_loop_keeps (tokens : list TokenInfo.t) (res m : TokenMap)
      (k : option string) :
  tokenMap_loop tokens res = Ok m -> is_Some (res !! k) -> is_Some (m !! k).
Proof.
  revert res. induction tokens as [|token rest IH]; intros res Hm Hk;
    simpl in Hm.
  - injection Hm as <-. exact Hk.
  - destruct (getAddress (TokenInfo.address token)) as [key|] eqn:Hkey;
      [ | discriminate ].
    apply (IH _ Hm). rewrite lookup_insert_is_Some.
    destruct (decide (Some key = k)); [ left | right ]; auto.
Qed.

Lemma tokenMap_loop_covers (tokens : list TokenInfo.t) (res m : TokenMap) :
  tokenMap_loop tokens res = Ok m ->
  forall token, token ∈ tokens ->
    exists key, getAddress (TokenInfo.address token) = Some key /\
                is_Some (m !! Some key).
Proof.
  revert res. induction tokens as [|token rest IH]; intros res Hm t Ht;
    simpl in Hm.
  - inversion Ht.
  - destruct (getAddress (TokenInfo.address token)) as [key|] eqn:Hkey;
      [ | discriminate ].
    apply elem_of_cons in Ht as [-> | Ht].
    + exists key. split; [ exact Hkey | ].
      apply (tokenMap_loop_keeps _ _ _ _ Hm).
      rewrite lookup_insert_eq. eauto.
    + apply (IH _ Hm t Ht).
Qed.

(** The last token that checksums to a key decides its binding. *)
Lemma tokenMap_loop_last (before after : list TokenInfo.t)
      (token : TokenInfo.t) (res m : TokenMap) (key : string) :
  tokenMap_loop (before ++ token :: after) res = Ok m ->
  getAddress (TokenInfo.address token) = Some key ->
  (forall t, t ∈ after -> getAddress (TokenInfo.address t) <> Some key) ->
  m !! Some key = Some (minimal token).
Proof.
  revert res. induction before as [|b before IH]; intros res Hm Hkey Hafter;
    simpl in Hm.
  - rewrite Hkey in Hm.
    rewrite (tokenMap_loop_untouched _ _ _ _ Hm Hafter).
    apply lookup_insert_eq.
  - destruct (getAddress (TokenInfo.address b)); [ | discriminate ].
    apply (IH _ Hm Hkey Hafter).
Qed.

Lemma tokenMap_loop_size (tokens : list TokenInfo.t) (res m : TokenMap) :
  tokenMap_loop tokens res = Ok m ->
  (size m <= size res + length tokens)%nat.
Proof.
  revert res. induction tokens as [|token rest IH]; intros res Hm;
    simpl in Hm.
  - injection Hm as <-. simpl. lia.
  - destruct (getAddress (TokenInfo.address token)) as [key|];
      [ | discriminate ].
    apply IH in Hm. rewrite map_size_insert in Hm. simpl.
    destruct (res !! Some key); simpl in Hm; lia.
Qed.

(** What [fetchTokenList] does, case by case. *)
Lemma fetchTokenList_mainnet (w : World) :
  fetchTokenList 1 w =
  ( match fetchTokens mainnetTokenURL with
    | Ok tokens => tokenMap tokens
    | Throw e => Throw e
    end,
    {| tokenList := tokenList w; log := log w ++ [Fetch mainnetTokenURL] |} ).
Proof.
  unfold fetchTokenList, bind, fetch, emit, lift. simpl.
  destruct (fetchTokens mainnetTokenURL); reflexivity.
Qed.

Lemma fetchTokenList_rinkeby (w : World) :
  fetchTokenList 4 w = (tokenMap rinkeby, w).
Proof. reflexivity. Qed.

Lemma fetchTokenList_xdai (w : World) :
  fetchTokenList 100 w = (tokenMap xdaiTokens, w).
Proof. reflexivity. Qed.

Lemma fetchTokenList_other (chainId : Z) (w : World) :
  chainId <> 1 -> chainId <> 4 -> chainId <> 100 ->
  fetchTokenList chainId w =
  ( Throw (Error "Unimplemented token list for undefined network"),
    {| tokenList := tokenList w;
       log := log w ++
              [ConsoleError "Unimplemented token list for undefined network"] |} ).
Proof.
  intros H1 H4 H100.
  unfold fetchTokenList, bind, console_error, emit, throw, unimplemented.
  apply Z.eqb_neq in H1, H4, H100. rewrite H1, H4, H100.
  assert (Hnone : networkMap !! chainId = None).
  { unfold networkMap. simpl.
    apply Z.eqb_neq in H1, H4, H100.
    rewrite !lookup_insert_ne by congruence. apply lookup_empty. }
  rewrite Hnone. reflexivity.
Qed.

(** The result of [fetchTokenList] does not depend on the world it
    starts from. *)
Lemma fetchTokenList_any_world (chainId : Z) (w w' : World) :
  fst (fetchTokenList chainId w) = fst (fetchTokenList chainId w').
Proof.
  destruct (decide (chainId = 1)) as [-> | H1];
    [ rewrite !fetchTokenList_mainnet; reflexivity | ].
  destruct (decide (chainId = 4)) as [-> | H4]; [ reflexivity | ].
  destruct (decide (chainId = 100)) as [-> | H100]; [ reflexivity | ].
  rewrite !fetchTokenList_other by assumption. reflexivity.
Qed.

(** A map that [fetchTokenList] returns was built by [tokenMap]. *)
Lemma fetchTokenList_built (chainId : Z) (w w' : World) (m : TokenMap) :
  fetchTokenList chainId w = (Ok m, w') ->
  exists tokens, tokenMap tokens = Ok m.
Proof.
  intros Hm.
  destruct (decide (chainId = 1)) as [-> | H1].
  { rewrite fetchTokenList_mainnet in Hm.
    destruct (fetchTokens mainnetTokenURL) as [tokens|]; [ | discriminate ].
    exists tokens. congruence. }
  destruct (decide (chainId = 4)) as [-> | H4].
  { rewrite fetchTokenList_rinkeby in Hm. exists rinkeby. congruence. }
  destruct (decide (chainId = 100)) as [-> | H100].
  { rewrite fetchTokenList_xdai in Hm. exists xdaiTokens. congruence. }
  rewrite fetchTokenList_other in Hm by assumption. discriminate.
Qed.

End TokenMapFacts.

(* ===================================================================== *)
(** ** Facts about [getTokenInfo] *)
(* ===================================================================== *)

Section GetTokenInfoFacts.
Context `{Imports}.

Lemma getTokenInfo_listed (tokenAddress : string) (w : World)
      (entry : MinimalTokenInfo) :
  tokenList w !! Some tokenAddress = Some entry ->
  getTokenInfo tokenAddress w = (Ok (Some entry), w).
Proof.
  intros Hin. unfold getTokenInfo, bind, Map_has, Map_get.
  rewrite bool_decide_eq_true_2 by (rewrite Hin; eauto).
  rewrite Hin. reflexivity.
Qed.

Lemma getTokenInfo_unlisted (tokenAddress : string) (w : World) :
  tokenList w !! Some tokenAddress = None ->
  getTokenInfo tokenAddress w =
  match ERC20.decimals (erc20Instance tokenAddress) with
  | Ok d =>
      ( Ok (Some (resolved tokenAddress d)),
        {| tokenList := <[Some tokenAddress := resolved tokenAddress d]> (tokenList w);
           log := queried tokenAddress w |} )
  | Throw _ =>
      ( Ok None,
        {| tokenList := tokenList w; log := queried tokenAddress w |} )
  end.
Proof.
  intros Hout. unfold getTokenInfo, bind at 1, Map_has.
  rewrite bool_decide_eq_false_2
    by (rewrite Hout; intros [? ?]; discriminate).
  unfold bind, catch, fmap, bind, call_decimals, call_symbol, bind, emit,
    lift, ret, Map_set, resolved, queried, orUndefined.
  cbn [tokenList log].
  destruct (ERC20.decimals (erc20Instance tokenAddress)) as [d|e];
    destruct (ERC20.symbol (erc20Instance tokenAddress)) as [sym|e'];
    cbn [tokenList log]; rewrite <- app_assoc; reflexivity.
Qed.

(** The map changes at one key at most, and only by an insertion. *)
Lemma getTokenInfo_tokenList (tokenAddress : string) (w : World) :
  tokenList (snd (getTokenInfo tokenAddress w)) = tokenList w \/
  exists d,
    tokenList w !! Some tokenAddress = None /\
    ERC20.decimals (erc20Instance tokenAddress) = Ok d /\
    tokenList (snd (getTokenInfo tokenAddress w)) =
    <[Some tokenAddress := resolved tokenAddress d]> (tokenList w).
Proof.
  destruct (tokenList w !! Some tokenAddress) as [entry|] eqn:Hlook.
  - left. rewrite (getTokenInfo_listed _ _ _ Hlook). reflexivity.
  - rewrite (getTokenInfo_unlisted _ _ Hlook).
    destruct (ERC20.decimals (erc20Instance tokenAddress)) as [d|e] eqn:Hd.
    + right. exists d. auto.
    + left. reflexivity.
Qed.

Lemma keys_checksummed_insert (m : TokenMap) (key : option string)
      (entry : MinimalTokenInfo) :
  m !! key = None ->
  keys_checksummed m ->
  (keys_checksummed (<[key := entry]> m) <-> checksummed key).
Proof.
  intros Hfresh Hm. split.
  - intros Hins. apply (Hins key entry). apply lookup_insert_eq.
  - intros Hkey k v Hk.
    destruct (decide (key = k)) as [<- | Hne]; [ exact Hkey | ].
    rewrite lookup_insert_ne in Hk by exact Hne. apply (Hm k v Hk).
Qed.

Lemma tokenMap_keys_checksummed (tokens : list TokenInfo.t) (m : TokenMap) :
  (forall a c, getAddress a = Some c -> getAddress c = Some c) ->
  tokenMap tokens = Ok m -> keys_checksummed m.
Proof.
  intros Hidem Hm k v Hk.
  destruct (tokenMap_loop_entries _ _ _ Hm k v Hk)
    as [Hempty | (token & key & _ & _ & Hkey & ->)].
  - rewrite lookup_empty in Hempty. discriminate.
  - exists key. split; [ reflexivity | eapply Hidem, Hkey ].
Qed.

End GetTokenInfoFacts.

(* ===================================================================== *)
(** ** The claims about [tokenMap], [fetchTokenList] and [getTokenInfo] *)
(* ===================================================================== *)

Section Claims.
Context `{Imports}.

(** C1. [getTokenInfo] is a lookup with fallback: an address that is a
    key of the map gets its stored entry and the world is left as it was
    (no contract call); for an absent address the contract is asked for
    its decimals and its symbol, and when the decimals come back the new
    entry is stored under the address and returned. *)
Theorem getTokenInfo_lookup_with_fallback (tokenAddress : string) (w : World) :
  (forall entry,
      tokenList w !! Some tokenAddress = Some entry ->
      getTokenInfo tokenAddress w = (Ok (Some entry), w)) /\
  (tokenList w !! Some tokenAddress = None ->
   log (snd (getTokenInfo tokenAddress w)) =
     log w ++ [CallDecimals tokenAddress; CallSymbol tokenAddress] /\
   forall d,
     ERC20.decimals (erc20Instance tokenAddress) = Ok d ->
     fst (getTokenInfo tokenAddress w) = Ok (Some (resolved tokenAddress d)) /\
     tokenList (snd (getTokenInfo tokenAddress w)) =
       <[Some tokenAddress := resolved tokenAddress d]> (tokenList w) /\
     tokenList (snd (getTokenInfo tokenAddress w)) !! Some tokenAddress =
       Some (resolved tokenAddress d)).
Proof.
  split.
  - intros entry Hin. apply getTokenInfo_listed, Hin.
  - intros Hout. rewrite (getTokenInfo_unlisted _ _ Hout). split.
    + destruct (ERC20.decimals (erc20Instance tokenAddress)); reflexivity.
    + intros d ->. cbn [fst snd tokenList].
      split; [ reflexivity | split; [ reflexivity | apply lookup_insert_eq ] ].
Qed.

(** C2. For a chain id other than 1, 4 and 100, [fetchTokenList] logs
    the message to the console and throws an [Error] with it; it
    returns no map and fetches nothing. *)
Theorem fetchTokenList_unsupported_throws (chainId : Z) (w : World) :
  chainId <> 1 -> chainId <> 4 -> chainId <> 100 ->
  fetchTokenList chainId w =
  ( Throw (Error "Unimplemented token list for undefined network"),
    {| tokenList := tokenList w;
       log := log w ++
              [ConsoleError "Unimplemented token list for undefined network"] |} ).
Proof. apply fetchTokenList_other. Qed.

(** C3, amended. Every key of a map that [tokenMap] builds, and so of a
    map that [fetchTokenList] returns, is a checksummed address.
    [getTokenInfo] stores an unlisted token under the address as it was
    given: on a map with checksummed keys, the keys are checksummed
    afterwards exactly when nothing was stored or the given address is
    checksummed. *)
Theorem checksummed_keys_amended :
  (forall a c, getAddress a = Some c -> getAddress c = Some c) ->
  (forall tokens m, tokenMap tokens = Ok m -> keys_checksummed m) /\
  (forall chainId w m w',
      fetchTokenList chainId w = (Ok m, w') -> keys_checksummed m) /\
  (forall tokenAddress w,
      keys_checksummed (tokenList w) ->
      (keys_checksummed (tokenList (snd (getTokenInfo tokenAddress w))) <->
       tokenList (snd (getTokenInfo tokenAddress w)) = tokenList w \/
       checksummed (Some tokenAddress))).
Proof.
  intros Hidem. split; [ | split ].
  - intros tokens m. apply tokenMap_keys_checksummed, Hidem.
  - intros chainId w m w' Hm.
    destruct (fetchTokenList_built _ _ _ _ Hm) as [tokens Htokens].
    apply (tokenMap_keys_checksummed _ _ Hidem Htokens).
  - intros tokenAddress w Hw.
    destruct (getTokenInfo_tokenList tokenAddress w)
      as [Hsame | (d & Hfresh & _ & Hins)].
    + rewrite Hsame. split; [ auto | intros _; exact Hw ].
    + rewrite Hins.
      rewrite (keys_checksummed_insert _ _ _ Hfresh Hw).
      split; [ auto | ].
      intros [Hsame | Hkey]; [ | exact Hkey ].
      exfalso. rewrite <- Hsame, lookup_insert_eq in Hfresh. discriminate.
Qed.

(** C4. [getTokenInfo] inserts an entry only when the contract answered
    the call of [decimals]: an entry that is in the map afterwards and
    was not before sits under the given address and carries the decimals
    that the contract returned. *)
Theorem getTokenInfo_caches_only_with_decimals
        (tokenAddress : string) (w : World)
        (key : option string) (entry : MinimalTokenInfo) :
  tokenList (snd (getTokenInfo tokenAddress w)) !! key = Some entry ->
  tokenList w !! key <> Some entry ->
  key = Some tokenAddress /\
  address entry = tokenAddress /\
  ERC20.decimals (erc20Instance tokenAddress) = Ok (decimals entry).
Proof.
  intros Hafter Hbefore.
  destruct (getTokenInfo_tokenList tokenAddress w)
    as [Hsame | (d & _ & Hd & Hins)].
  - rewrite Hsame in Hafter. contradiction.
  - rewrite Hins in Hafter.
    destruct (decide (Some tokenAddress = key)) as [<- | Hne].
    + rewrite lookup_insert_eq in Hafter. injection Hafter as <-.
      split; [ reflexivity | split; [ reflexivity | exact Hd ] ].
    + rewrite lookup_insert_ne in Hafter by exact Hne. contradiction.
Qed.

(** C5. For every token list, [tokenMap] builds a map unless
    [utils.getAddress] throws on the address of some token; in the map
    that it builds every token has an entry under the checksum of its
    address, and every entry is a token of the list under the checksum
    of its address.  So the key of every entry is [getAddress] of the
    address in the entry, also in a map that [fetchTokenList] returns. *)
Theorem tokenMap_keyed_by_checksum (tokens : list TokenInfo.t) :
  ((exists m, tokenMap tokens = Ok m) <-> Forall accepted tokens) /\
  (forall m,
      tokenMap tokens = Ok m ->
      (forall token, token ∈ tokens ->
         exists key, getAddress (TokenInfo.address token) = Some key /\
                     is_Some (m !! Some key)) /\
      (forall k v, m !! k = Some v ->
         exists token key,
           token ∈ tokens /\ v = minimal token /\
           getAddress (TokenInfo.address token) = Some key /\ k = Some key)) /\
  (forall chainId w m w',
      fetchTokenList chainId w = (Ok m, w') ->
      forall k v, m !! k = Some v ->
        exists key, getAddress (address v) = Some key /\ k = Some key).
Proof.
  split; [ | split ].
  - split.
    + intros [m Hm]. apply (tokenMap_loop_accepted _ _ _ Hm).
    + apply tokenMap_loop_total.
  - intros m Hm. split.
    + apply (tokenMap_loop_covers _ _ _ Hm).
    + intros k v Hk.
      destruct (tokenMap_loop_entries _ _ _ Hm k v Hk) as [Hempty | Hfrom];
        [ | exact Hfrom ].
      rewrite lookup_empty in Hempty. discriminate.
  - intros chainId w m w' Hm k v Hk.
    destruct (fetchTokenList_built _ _ _ _ Hm) as [source Hsource].
    destruct (tokenMap_loop_entries _ _ _ Hsource k v Hk)
      as [Hempty | (token & key & _ & -> & Hkey & ->)].
    + rewrite lookup_empty in Hempty. discriminate.
    + exists key. split; [ exact Hkey | reflexivity ].
Qed.

(** C6. [fetchTokenList] takes its tokens from the source of the
    network: for chain id 1 the list fetched from the coingecko URL (one
    fetch, of that URL), for chain id 4 the bundled rinkeby list, for
    chain id 100 the bundled xdai list (no fetch for these two); what it
    returns is [tokenMap] of these tokens. *)
Theorem fetchTokenList_selects_source (w : World) :
  fetchTokenList 1 w =
    ( match fetchTokens "https://tokens.coingecko.com/uniswap/all.json" with
      | Ok tokens => tokenMap tokens
      | Throw e => Throw e
      end,
      {| tokenList := tokenList w;
         log := log w ++
                [Fetch "https://tokens.coingecko.com/uniswap/all.json"] |} ) /\
  fetchTokenList 4 w = (tokenMap rinkeby, w) /\
  fetchTokenList 100 w = (tokenMap xdaiTokens, w).
Proof.
  split; [ apply fetchTokenList_mainnet | ].
  split; [ apply fetchTokenList_rinkeby | apply fetchTokenList_xdai ].
Qed.

(** C8. For an address that is not in the map, when the call of
    [decimals] fails, [getTokenInfo] returns [undefined] and the map is
    as it was; both calls were made. *)
Theorem getTokenInfo_decimals_failure
        (tokenAddress : string) (w : World) (reason : exn) :
  tokenList w !! Some tokenAddress = None ->
  ERC20.decimals (erc20Instance tokenAddress) = Throw reason ->
  getTokenInfo tokenAddress w =
  ( Ok None,
    {| tokenList := tokenList w;
       log := log w ++ [CallDecimals tokenAddress; CallSymbol tokenAddress] |} ).
Proof.
  intros Hout Hd. rewrite (getTokenInfo_unlisted _ _ Hout), Hd. reflexivity.
Qed.

(** C9. For an address that is not in the map, when the call of
    [decimals] succeeds and the call of [symbol] fails, [getTokenInfo]
    returns, and stores under the address, an entry with these decimals,
    no symbol and no logo.  Whether an entry is returned depends on the
    call of [decimals] alone. *)
Theorem getTokenInfo_symbol_failure (tokenAddress : string) (w : World) :
  tokenList w !! Some tokenAddress = None ->
  (forall d reason,
      ERC20.decimals (erc20Instance tokenAddress) = Ok d ->
      ERC20.symbol (erc20Instance tokenAddress) = Throw reason ->
      let entry := {| decimals := d; address := tokenAddress;
                      symbol := None; logoURI := None |} in
      getTokenInfo tokenAddress w =
        ( Ok (Some entry),
          {| tokenList := <[Some tokenAddress := entry]> (tokenList w);
             log := log w ++
                    [CallDecimals tokenAddress; CallSymbol tokenAddress] |} ) /\
      tokenList (snd (getTokenInfo tokenAddress w)) !! Some tokenAddress =
        Some entry) /\
  ((exists entry, fst (getTokenInfo tokenAddress w) = Ok (Some entry)) <->
   (exists d, ERC20.decimals (erc20Instance tokenAddress) = Ok d)).
Proof.
  intros Hout. rewrite (getTokenInfo_unlisted _ _ Hout). split.
  - intros d reason Hd Hs entry. rewrite Hd.
    unfold resolved. rewrite Hs. cbn [orUndefined snd tokenList].
    split; [ reflexivity | apply lookup_insert_eq ].
  - destruct (ERC20.decimals (erc20Instance tokenAddress)) as [d|e];
      cbn [fst]; split.
    + intros _. exists d. reflexivity.
    + intros _. eexists. reflexivity.
    + intros [entry Hentry]. discriminate.
    + intros [d Hd]. discriminate.
Qed.

(** C10. When several tokens of a list checksum to the same address,
    the map that [tokenMap] builds binds that address to the last of
    them, and it has no more entries than the list has tokens; the map
    is built unless [utils.getAddress] throws on some token. *)
Theorem tokenMap_last_wins (before after : list TokenInfo.t)
        (token : TokenInfo.t) (key : string) :
  getAddress (TokenInfo.address token) = Some key ->
  (forall t, t ∈ after -> getAddress (TokenInfo.address t) <> Some key) ->
  ((exists m, tokenMap (before ++ token :: after) = Ok m) <->
   Forall accepted (before ++ token :: after)) /\
  (forall m,
      tokenMap (before ++ token :: after) = Ok m ->
      m !! Some key = Some (minimal token) /\
      (size m <= length (before ++ token :: after))%nat).
Proof.
  intros Hkey Hafter. split.
  - split.
    + intros [m Hm]. apply (tokenMap_loop_accepted _ _ _ Hm).
    + apply tokenMap_loop_total.
  - intros m Hm. split.
    + apply (tokenMap_loop_last _ _ _ _ _ _ Hm Hkey Hafter).
    + pose proof (tokenMap_loop_size _ _ _ Hm) as Hsize.
      rewrite map_size_empty in Hsize. exact Hsize.
Qed.

End Claims.

(* ===================================================================== *)
(** ** Facts about [useTokenList] *)
(* ===================================================================== *)

Section UseTokenListFacts.
Context `{Imports}.

Local Open Scope nat_scope.

Lemma run_app (s : Component) (t1 t2 : list Label) :
  run s (t1 ++ t2) = run (run s t1) t2.
Proof. apply fold_left_app. Qed.

(** *** Once cleaned, always cleaned *)

Lemma cleaned_alter (f : Effect -> Effect) (j i : nat) (es : list Effect) :
  (forall e, isMounted e = false -> isMounted (f e) = false) ->
  (exists e, es !! i = Some e /\ isMounted e = false) ->
  exists e, alter f j es !! i = Some e /\ isMounted e = false.
Proof.
  intros Hf (e & Hi & He).
  destruct (decide (j = i)) as [-> | Hne].
  - exists (f e). rewrite list_lookup_alter_eq, Hi. auto.
  - exists e. rewrite list_lookup_alter_ne by exact Hne. auto.
Qed.

Lemma cleaned_cleanup (i : nat) (s : Component) :
  cleaned i s -> cleaned i (cleanup s).
Proof. apply cleaned_alter. reflexivity. Qed.

Lemma cleaned_effect (i : nat) (chainId : Z) (s : Component) :
  cleaned i s -> cleaned i (effect chainId s).
Proof.
  intros (e & Hi & He). exists e. split; [ | exact He ].
  apply lookup_app_l_Some, Hi.
Qed.

Lemma cleaned_mark_settled (i j : nat) (s : Component) :
  cleaned i s -> cleaned i (mark_settled j s).
Proof. apply cleaned_alter. auto. Qed.

Lemma effects_then_callback (e : Effect) (result : TokenMap) (s : Component) :
  effects (then_callback e result s) = effects s.
Proof. unfold then_callback. destruct (isMounted e); reflexivity. Qed.

Lemma effects_settle (j : nat) (s : Component) :
  effects (settle j s) = effects s \/
  effects (settle j s) = effects (mark_settled j s).
Proof.
  unfold settle. destruct (effects s !! j) as [e|]; [ | auto ].
  destruct (settled e); [ auto | ].
  destruct (promise e); [ rewrite effects_then_callback | ]; auto.
Qed.

Lemma cleaned_step (i : nat) (s : Component) (l : Label) :
  cleaned i s -> cleaned i (step s l).
Proof.
  intros Hi. destruct l as [chainId | j | ]; simpl.
  - unfold render. destruct (decide (deps s = Some chainId)); [ exact Hi | ].
    apply cleaned_effect, cleaned_cleanup, Hi.
  - unfold cleaned.
    destruct (effects_settle j s) as [-> | ->]; [ exact Hi | ].
    apply (cleaned_mark_settled i j s Hi).
  - apply cleaned_cleanup, Hi.
Qed.

Lemma cleaned_run (i : nat) (s : Component) (trace : list Label) :
  cleaned i s -> cleaned i (run s trace).
Proof.
  revert s. induction trace as [|l trace IH]; intros s Hi; simpl.
  - exact Hi.
  - apply IH, cleaned_step, Hi.
Qed.

(** *** The cleanup is that of the latest run *)

Lemma cleanup_cleans_latest (s : Component) :
  effects s <> [] -> cleaned (pred (length (effects s))) (cleanup s).
Proof.
  intros Hne.
  destruct (lookup_lt_is_Some_2 (effects s) (pred (length (effects s))))
    as [e He].
  { destruct (effects s); [ congruence | simpl; lia ]. }
  exists (callback e). split; [ | reflexivity ].
  simpl. rewrite list_lookup_alter_eq, He. reflexivity.
Qed.

(** *** A settlement after the cleanup *)

Lemma settle_cleaned (i : nat) (s : Component) :
  cleaned i s ->
  tokenList_state (settle i s) = tokenList_state s /\
  isLoading (settle i s) = isLoading s /\
  updates (settle i s) = updates s.
Proof.
  intros (e & Hi & He). unfold settle. rewrite Hi.
  destruct (settled e); [ auto | ].
  destruct (promise e) as [result|]; [ | auto ].
  unfold then_callback. rewrite He. auto.
Qed.

(** *** Counting runs and updates *)

Lemma length_effects_cleanup (s : Component) :
  length (effects (cleanup s)) = length (effects s).
Proof. apply length_alter. Qed.

Lemma length_effects_settle (j : nat) (s : Component) :
  length (effects (settle j s)) = length (effects s).
Proof.
  destruct (effects_settle j s) as [-> | ->]; [ reflexivity | ].
  apply length_alter.
Qed.

Lemma deps_settle (j : nat) (s : Component) : deps (settle j s) = deps s.
Proof.
  unfold settle. destruct (effects s !! j) as [e|]; [ | reflexivity ].
  destruct (settled e); [ reflexivity | ].
  destruct (promise e); [ | reflexivity ].
  unfold then_callback. destruct (isMounted e); reflexivity.
Qed.

(** Each run of the effect is one call of [fetchTokenList]; the effect
    runs once for each change of the chain id. *)
Lemma length_effects_run (s : Component) (trace : list Label) :
  length (effects (run s trace)) =
  length (effects s) + network_changes (deps s) trace.
Proof.
  revert s. induction trace as [|l trace IH]; intros s; simpl.
  - lia.
  - rewrite IH. destruct l as [chainId | j | ]; simpl.
    + unfold render. destruct (decide (deps s = Some chainId)) as [Heq | Hne].
      * reflexivity.
      * simpl. rewrite length_app, length_alter. simpl. lia.
    + rewrite length_effects_settle, deps_settle. reflexivity.
    + rewrite length_alter. reflexivity.
Qed.

Lemma count_settled_le (es : list Effect) : count_settled es <= length es.
Proof.
  induction es as [|e es IH]; simpl; [ lia | ].
  destruct (settled e); lia.
Qed.

Lemma count_settled_app (es1 es2 : list Effect) :
  count_settled (es1 ++ es2) = count_settled es1 + count_settled es2.
Proof. induction es1 as [|e es1 IH]; simpl; [ reflexivity | lia ]. Qed.

Lemma count_settled_alter_same (f : Effect -> Effect) (j : nat)
      (es : list Effect) :
  (forall e, settled (f e) = settled e) ->
  count_settled (alter f j es) = count_settled es.
Proof.
  intros Hf. unfold alter. revert j.
  induction es as [|e es IH]; intros [|j]; simpl; try reflexivity.
  - rewrite Hf. reflexivity.
  - rewrite IH. reflexivity.
Qed.

Lemma count_settled_mark (j : nat) (es : list Effect) (e : Effect) :
  es !! j = Some e -> settled e = false ->
  count_settled
    (alter (fun e => {| isMounted := isMounted e; promise := promise e;
                        settled := true |}) j es) = S (count_settled es).
Proof.
  unfold alter. revert j.
  induction es as [|e0 es IH]; intros [|j] Hj He; simpl in *;
    try discriminate.
  - injection Hj as ->. rewrite He. reflexivity.
  - rewrite (IH _ Hj He). lia.
Qed.

(** [setTokenList] is called at most once for each settled promise. *)
Lemma updates_step (s : Component) (l : Label) :
  updates s <= count_settled (effects s) ->
  updates (step s l) <= count_settled (effects (step s l)).
Proof.
  intros Hinv. destruct l as [chainId | j | ]; simpl.
  - unfold render. destruct (decide (deps s = Some chainId)); [ exact Hinv | ].
    simpl. rewrite count_settled_app, count_settled_alter_same by reflexivity.
    simpl. lia.
  - unfold settle. destruct (effects s !! j) as [e|] eqn:Hj; [ | exact Hinv ].
    destruct (settled e) eqn:He; [ exact Hinv | ].
    pose proof (count_settled_mark _ _ _ Hj He) as Hcount.
    destruct (promise e) as [result|].
    + unfold then_callback. destruct (isMounted e); simpl; lia.
    + simpl. lia.
  - rewrite count_settled_alter_same by reflexivity. exact Hinv.
Qed.

Lemma updates_run (s : Component) (trace : list Label) :
  updates s <= count_settled (effects s) ->
  updates (run s trace) <= count_settled (effects (run s trace)).
Proof.
  revert s. induction trace as [|l trace IH]; intros s Hinv; simpl.
  - exact Hinv.
  - apply IH, updates_step, Hinv.
Qed.

(** C7. The fetch of [useTokenList] can be cancelled.  The cleanup of
    the latest run of the effect is called on unmount and when the chain
    id has changed; once the cleanup of a run has been called, the
    settlement of its promise, whenever it comes, changes neither
    [tokenList] nor [isLoading].  The effect runs, and so calls
    [fetchTokenList], once for each change of the chain id, and
    [setTokenList] is called at most that often. *)
Theorem useTokenList_cancellable (trace later : list Label) (i : nat) :
  let s0 := run initial trace in
  let s := run initial (trace ++ later) in
  (forall l,
      l = Unmount \/ (exists chainId, l = Render chainId /\ deps s0 <> Some chainId) ->
      effects s0 <> [] ->
      cleaned (pred (length (effects s0))) (step s0 l)) /\
  (cleaned i s0 ->
   tokenList_state (step s (Settle i)) = tokenList_state s /\
   isLoading (step s (Settle i)) = isLoading s) /\
  length (effects s0) = network_changes None trace /\
  updates s0 <= network_changes None trace.
Proof.
  intros s0 s. split; [ | split; [ | split ] ].
  - intros l [-> | (chainId & -> & Hchanged)] Hne; simpl.
    + apply cleanup_cleans_latest, Hne.
    + unfold render. destruct (decide (deps s0 = Some chainId)); [ contradiction | ].
      apply cleaned_effect, cleanup_cleans_latest, Hne.
  - intros Hi.
    assert (Hs : cleaned i s).
    { unfold s. rewrite run_app. apply cleaned_run, Hi. }
    destruct (settle_cleaned i s Hs) as (Hlist & Hloading & _). auto.
  - unfold s0. rewrite length_effects_run. reflexivity.
  - assert (Hlen : length (effects s0) = network_changes None trace).
    { unfold s0. rewrite length_effects_run. reflexivity. }
    rewrite <- Hlen.
    etransitivity; [ | apply count_settled_le ].
    apply updates_run. simpl. lia.
Qed.

End UseTokenListFacts.

(* ===================================================================== *)
(** ** The statements at work in the concrete environment *)
(* ===================================================================== *)

Module Witness.
Import Example.

(** A token whose address has a wrong mixed casing makes [tokenMap]
    throw. *)
Example tokenMap_rejects_bad_checksum :
  @tokenMap imports [alpha; broken] =
  Throw (InvalidAddress "0x5AAeb6053F3E94C9b9A09f33669435E7Ef1BeAed").
Proof. vm_compute. reflexivity. Qed.

(** The first render on chain 4 starts loading; when the promise settles
    the list is set, once. *)
Example useTokenList_loads :
  let s := @run imports initial [Render 4; Settle 0] in
  Ok (tokenList_state s) = @tokenMap imports [alpha; beta] /\
  isLoading s = false /\ updates s = 1%nat.
Proof. vm_compute. repeat split; reflexivity. Qed.

(** A change of chain before the promise settles: the late result of the
    first run is dropped, the list stays empty and loading goes on. *)
Example useTokenList_drops_late_result :
  let s := @run imports initial [Render 4; Render 1; Settle 0] in
  tokenList_state s = ∅ /\ isLoading s = true /\ updates s = 0%nat.
Proof. vm_compute. repeat split; reflexivity. Qed.

Local Ltac accepted_all :=
  repeat constructor; eexists; vm_compute; reflexivity.

Lemma getTokenInfo_lookup_with_fallback_witness :
  (tokenList listed_world !! Some mixed = Some (minimal beta) /\
   @getTokenInfo imports mixed listed_world =
     (Ok (Some (minimal beta)), listed_world)) /\
  (tokenList empty_world !! Some lower = None /\
   ERC20.decimals (@erc20Instance imports lower) = Ok 18 /\
   fst (@getTokenInfo imports lower empty_world) =
     Ok (Some (@resolved imports lower 18))).
Proof.
  split.
  - assert (Hin : tokenList listed_world !! Some mixed = Some (minimal beta))
      by apply lookup_singleton_eq.
    split; [ exact Hin | ].
    exact (proj1 (@getTokenInfo_lookup_with_fallback imports mixed listed_world)
                 _ Hin).
  - assert (Hout : tokenList empty_world !! Some lower = None)
      by apply lookup_empty.
    split; [ exact Hout | split; [ reflexivity | ] ].
    exact (proj1 (proj2 (proj2 (@getTokenInfo_lookup_with_fallback
                                  imports lower empty_world) Hout)
                        18 eq_refl)).
Defined.

Lemma fetchTokenList_unsupported_throws_witness :
  (5 <> 1 /\ 5 <> 4 /\ 5 <> 100) /\
  fst (@fetchTokenList imports 5 empty_world) =
    Throw (Error "Unimplemented token list for undefined network").
Proof.
  assert (H1 : 5 <> 1) by lia.
  assert (H4 : 5 <> 4) by lia.
  assert (H100 : 5 <> 100) by lia.
  split; [ auto | ].
  rewrite (@fetchTokenList_unsupported_throws imports 5 empty_world H1 H4 H100).
  reflexivity.
Defined.

Lemma empty_keys_checksummed : @keys_checksummed imports ∅.
Proof. intros key entry Hin. rewrite lookup_empty in Hin. discriminate. Qed.

Lemma checksummed_keys_amended_witness :
  (forall a c, @getAddress imports a = Some c -> @getAddress imports c = Some c) /\
  @keys_checksummed imports (tokenList empty_world) /\
  @checksummed imports (Some mixed) /\
  @keys_checksummed imports
    (tokenList (snd (@getTokenInfo imports mixed empty_world))).
Proof.
  assert (Hmixed : @checksummed imports (Some mixed)).
  { exists mixed. split; [ reflexivity | vm_compute; reflexivity ]. }
  split; [ exact EthersFacts.getAddress_idempotent | ].
  split; [ exact empty_keys_checksummed | ].
  split; [ exact Hmixed | ].
  apply (proj2 (proj2 (@checksummed_keys_amended imports
                         EthersFacts.getAddress_idempotent))
               mixed empty_world empty_keys_checksummed).
  right. exact Hmixed.
Defined.

(** C3 as it is written fails: on the empty map, whose keys are all
    checksummed, [getTokenInfo] of an address in lower case, for a
    contract that answers [decimals], stores the entry under the
    lower-case string, which is not checksummed. *)
Lemma checksummed_keys_counterexample :
  @keys_checksummed imports (tokenList empty_world) /\
  ERC20.decimals (@erc20Instance imports lower) = Ok 18 /\
  ~ @keys_checksummed imports
      (tokenList (snd (@getTokenInfo imports lower empty_world))).
Proof.
  split; [ exact empty_keys_checksummed | split; [ reflexivity | ] ].
  intros Hkeys.
  destruct (Hkeys (Some lower) (@resolved imports lower 18))
    as (a & Ha & Hfix).
  - vm_compute. reflexivity.
  - injection Ha as <-. vm_compute in Hfix. discriminate.
Qed.

Lemma getTokenInfo_caches_only_with_decimals_witness :
  tokenList (snd (@getTokenInfo imports lower empty_world)) !! Some lower =
    Some (@resolved imports lower 18) /\
  tokenList empty_world !! Some lower <> Some (@resolved imports lower 18) /\
  ERC20.decimals (@erc20Instance imports lower) = Ok 18.
Proof.
  assert (Hafter :
    tokenList (snd (@getTokenInfo imports lower empty_world)) !! Some lower =
      Some (@resolved imports lower 18)) by (vm_compute; reflexivity).
  assert (Hbefore :
    tokenList empty_world !! Some lower <> Some (@resolved imports lower 18)).
  { intros Hin. vm_compute in Hin. discriminate. }
  split; [ exact Hafter | split; [ exact Hbefore | ] ].
  exact (proj2 (proj2 (@getTokenInfo_caches_only_with_decimals imports lower
                         empty_world (Some lower) (@resolved imports lower 18)
                         Hafter Hbefore))).
Defined.

Lemma tokenMap_keyed_by_checksum_witness :
  Forall (@accepted imports) [alpha; beta; gamma] /\
  exists m, @tokenMap imports [alpha; beta; gamma] = Ok m /\
            is_Some (m !! Some mixed) /\ is_Some (m !! Some other).
Proof.
  assert (Hall : Forall (@accepted imports) [alpha; beta; gamma])
    by accepted_all.
  split; [ exact Hall | ].
  destruct (@tokenMap_keyed_by_checksum imports [alpha; beta; gamma])
    as (Hbuilt & Hkeys & _).
  destruct (proj2 Hbuilt Hall) as [m Hm].
  destruct (Hkeys m Hm) as [Hcovers _].
  exists m. split; [ exact Hm | split ].
  - destruct (Hcovers beta) as (key & Hkey & Hin).
    + right. left.
    + vm_compute in Hkey. injection Hkey as <-. exact Hin.
  - destruct (Hcovers gamma) as (key & Hkey & Hin).
    + right. right. left.
    + vm_compute in Hkey. injection Hkey as <-. exact Hin.
Defined.

Lemma useTokenList_cancellable_witness :
  effects (@run imports initial [Render 4]) <> [] /\
  cleaned 0 (@run imports initial [Render 4; Unmount]) /\
  tokenList_state
    (@step imports (@run imports initial ([Render 4; Unmount] ++ [Render 1]))
           (Settle 0)) =
  tokenList_state (@run imports initial ([Render 4; Unmount] ++ [Render 1])).
Proof.
  assert (Hran : effects (@run imports initial [Render 4]) <> [])
    by (vm_compute; discriminate).
  assert (Hcleaned : cleaned 0 (@run imports initial [Render 4; Unmount])).
  { exact (proj1 (@useTokenList_cancellable imports [Render 4] [] 0)
                 Unmount (or_introl eq_refl) Hran). }
  split; [ exact Hran | split; [ exact Hcleaned | ] ].
  exact (proj1 (proj1 (proj2 (@useTokenList_cancellable imports
                                [Render 4; Unmount] [Render 1] 0))
                      Hcleaned)).
Defined.

Lemma getTokenInfo_decimals_failure_witness :
  tokenList empty_world !! Some other = None /\
  fst (@getTokenInfo imports other empty_world) = Ok None /\
  tokenList (snd (@getTokenInfo imports other empty_world)) =
    tokenList empty_world.
Proof.
  assert (Hout : tokenList empty_world !! Some other = None)
    by apply lookup_empty.
  split; [ exact Hout | ].
  rewrite (@getTokenInfo_decimals_failure imports other empty_world
             (Rejected "call revert exception") Hout eq_refl).
  split; reflexivity.
Defined.

Lemma getTokenInfo_symbol_failure_witness :
  tokenList empty_world !! Some lower = None /\
  ERC20.decimals (@erc20Instance imports lower) = Ok 18 /\
  ERC20.symbol (@erc20Instance imports lower) =
    Throw (Rejected "call revert exception") /\
  tokenList (snd (@getTokenInfo imports lower empty_world)) !! Some lower =
    Some {| decimals := 18; address := lower; symbol := None; logoURI := None |}.
Proof.
  assert (Hout : tokenList empty_world !! Some lower = None)
    by apply lookup_empty.
  split; [ exact Hout | split; [ reflexivity | split; [ reflexivity | ] ] ].
  exact (proj2 (proj1 (@getTokenInfo_symbol_failure imports lower empty_world
                         Hout)
                      18 (Rejected "call revert exception") eq_refl eq_refl)).
Defined.

Lemma tokenMap_last_wins_witness :
  @getAddress imports (TokenInfo.address alpha) = Some mixed /\
  @getAddress imports (TokenInfo.address beta) = Some mixed /\
  exists m, @tokenMap imports ([alpha] ++ beta :: [gamma]) = Ok m /\
            m !! Some mixed = Some (minimal beta) /\
            (size m <= 3)%nat.
Proof.
  split; [ vm_compute; reflexivity | ].
  split; [ vm_compute; reflexivity | ].
  assert (Hkey : @getAddress imports (TokenInfo.address beta) = Some mixed)
    by (vm_compute; reflexivity).
  assert (Hafter : forall t, t ∈ [gamma] ->
                     @getAddress imports (TokenInfo.address t) <> Some mixed).
  { intros t Ht. apply list_elem_of_singleton in Ht as ->.
    vm_compute. discriminate. }
  destruct (@tokenMap_last_wins imports [alpha] [gamma] beta mixed Hkey Hafter)
    as [Hbuilt Hlast].
  destruct (proj2 Hbuilt) as [m Hm]; [ accepted_all | ].
  exists m. split; [ exact Hm | exact (Hlast m Hm) ].
Defined.

End Witness.

(* ===================================================================== *)
(** ** More about [tokenMap] *)
(* ===================================================================== *)

Section TokenMapAlgebra.
Context `{Imports}.

(** The loop on an accumulator is the loop on the empty map, laid over the
    accumulator. *)
Lemma tokenMap_loop_union (tokens : list TokenInfo.t) (res : TokenMap) :
  tokenMap_loop tokens res =
  match tokenMap tokens with
  | Ok m => Ok (m ∪ res)
  | Throw e => Throw e
  end.
Proof.
  unfold tokenMap. revert res.
  induction tokens as [|token rest IH]; intros res; simpl.
  - rewrite (left_id_L ∅ (∪)). reflexivity.
  - destruct (getAddress (TokenInfo.address token)) as [key|]; [ | reflexivity ].
    rewrite (IH (<[Some key := minimal token]> res)).
    rewrite (IH (<[Some key := minimal token]> ∅)).
    destruct (tokenMap_loop rest ∅) as [m|e]; [ | reflexivity ].
    f_equal. rewrite insert_empty, (insert_union_singleton_l res).
    apply (assoc_L (∪)).
Qed.

Lemma tokenMap_loop_app (l1 l2 : list TokenInfo.t) (res : TokenMap) :
  tokenMap_loop (l1 ++ l2) res =
  match tokenMap_loop l1 res with
  | Ok m => tokenMap_loop l2 m
  | Throw e => Throw e
  end.
Proof.
  revert res. induction l1 as [|token rest IH]; intros res; simpl.
  - reflexivity.
  - destruct (getAddress (TokenInfo.address token)); [ apply IH | reflexivity ].
Qed.

(** X1. One address that [utils.getAddress] rejects makes [tokenMap]
    throw, whatever comes after it; the error is that of the first such
    address. *)
Theorem tokenMap_throws_at_first_rejected
        (good rest : list TokenInfo.t) (bad : TokenInfo.t) :
  Forall accepted good ->
  getAddress (TokenInfo.address bad) = None ->
  tokenMap (good ++ bad :: rest) = Throw (InvalidAddress (TokenInfo.address bad)).
Proof.
  intros Hgood Hbad. unfold tokenMap. rewrite tokenMap_loop_app.
  destruct (tokenMap_loop_total good ∅ Hgood) as [m ->].
  simpl. rewrite Hbad. reflexivity.
Qed.

(** X2. The index of a concatenation is the union of the two indexes, in
    which the entries of the second list win; when a list makes
    [tokenMap] throw, the concatenation throws the same, the first list
    first. *)
Theorem tokenMap_app (l1 l2 : list TokenInfo.t) :
  tokenMap (l1 ++ l2) =
  match tokenMap l1, tokenMap l2 with
  | Ok m1, Ok m2 => Ok (m2 ∪ m1)
  | Ok _, Throw e => Throw e
  | Throw e, _ => Throw e
  end.
Proof.
  unfold tokenMap at 1. rewrite tokenMap_loop_app.
  fold (tokenMap l1). destruct (tokenMap l1) as [m1|e]; [ | reflexivity ].
  rewrite tokenMap_loop_union. destruct (tokenMap l2); reflexivity.
Qed.

Lemma tokenMap_loop_size_distinct (tokens : list TokenInfo.t) (res m : TokenMap) :
  tokenMap_loop tokens res = Ok m ->
  (size m = size res + length tokens)%nat <->
  NoDup (map (fun t => getAddress (TokenInfo.address t)) tokens) /\
  (forall t, t ∈ tokens -> res !! getAddress (TokenInfo.address t) = None).
Proof.
  revert res. induction tokens as [|token rest IH]; intros res Hm; simpl in Hm.
  - injection Hm as <-. simpl. split.
    + intros _. split; [ constructor | intros t Ht; inversion Ht ].
    + intros _. lia.
  - destruct (getAddress (TokenInfo.address token)) as [key|] eqn:Hkey;
      [ | discriminate ].
    pose proof (tokenMap_loop_size _ _ _ Hm) as Hle.
    pose proof (IH _ Hm) as Hrest.
    rewrite map_size_insert in Hle, Hrest.
    simpl. rewrite Hkey. split.
    + intros Hsize.
      destruct (res !! Some key) eqn:Hres; simpl in *; [ lia | ].
      destruct (proj1 Hrest) as [Hnodup Hfresh]; [ lia | ].
      assert (Hnotin : Some key ∉ map (fun t => getAddress (TokenInfo.address t)) rest).
      { intros Hin. apply list_elem_of_fmap in Hin as (t & Ht & Hin).
        specialize (Hfresh t Hin). rewrite <- Ht, lookup_insert_eq in Hfresh.
        discriminate. }
      split; [ constructor; assumption | ].
      intros t Ht. apply elem_of_cons in Ht as [-> | Ht].
      * rewrite Hkey. exact Hres.
      * specialize (Hfresh t Ht).
        rewrite lookup_insert_ne in Hfresh; [ exact Hfresh | ].
        intros Heq. apply Hnotin. rewrite Heq.
        apply list_elem_of_fmap. exists t. auto.
    + intros [Hnodup Hfresh]. apply NoDup_cons in Hnodup as [Hnotin Hnodup].
      assert (Hres : res !! Some key = None).
      { rewrite <- Hkey. apply Hfresh. left. }
      rewrite Hres in Hrest. simpl in Hrest.
      enough (size m = S (size res) + length rest)%nat by lia.
      apply Hrest. split; [ exact Hnodup | ].
      intros t Ht. rewrite lookup_insert_ne; [ apply Hfresh; right; exact Ht | ].
      intros Heq. apply Hnotin. rewrite Heq.
      apply list_elem_of_fmap. exists t. auto.
Qed.

(** X3. The map has as many entries as the list has tokens exactly when
    no two tokens checksum to the same address. *)
Theorem tokenMap_size_distinct (tokens : list TokenInfo.t) (m : TokenMap) :
  tokenMap tokens = Ok m ->
  (size m = length tokens <->
   NoDup (map (fun t => getAddress (TokenInfo.address t)) tokens)).
Proof.
  intros Hm. pose proof (tokenMap_loop_size_distinct _ _ _ Hm) as Hiff.
  rewrite map_size_empty in Hiff. simpl in Hiff. rewrite Hiff.
  split; [ intros [Hnodup _]; exact Hnodup | ].
  intros Hnodup. split; [ exact Hnodup | intros t _; apply lookup_empty ].
Qed.

End TokenMapAlgebra.

(* ===================================================================== *)
(** ** More about [getTokenInfo] and [fetchTokenList] *)
(* ===================================================================== *)

Section GetTokenInfoAlgebra.
Context `{Imports}.

Lemma getTokenInfo_result (tokenAddress : string) (w : World) :
  fst (getTokenInfo tokenAddress w) =
  Ok match tokenList w !! Some tokenAddress with
     | Some entry => Some entry
     | None =>
         match ERC20.decimals (erc20Instance tokenAddress) with
         | Ok d => Some (resolved tokenAddress d)
         | Throw _ => None
         end
     end.
Proof.
  destruct (tokenList w !! Some tokenAddress) as [entry|] eqn:Hlook.
  - rewrite (getTokenInfo_listed _ _ _ Hlook). reflexivity.
  - rewrite (getTokenInfo_unlisted _ _ Hlook).
    destruct (ERC20.decimals (erc20Instance tokenAddress)); reflexivity.
Qed.

Lemma getTokenInfo_map (tokenAddress : string) (w : World) :
  tokenList (snd (getTokenInfo tokenAddress w)) =
  match tokenList w !! Some tokenAddress,
        ERC20.decimals (erc20Instance tokenAddress) with
  | None, Ok d => <[Some tokenAddress := resolved tokenAddress d]> (tokenList w)
  | _, _ => tokenList w
  end.
Proof.
  destruct (tokenList w !! Some tokenAddress) as [entry|] eqn:Hlook.
  - rewrite (getTokenInfo_listed _ _ _ Hlook). reflexivity.
  - rewrite (getTokenInfo_unlisted _ _ Hlook).
    destruct (ERC20.decimals (erc20Instance tokenAddress)); reflexivity.
Qed.

Lemma getTokenInfo_log (tokenAddress : string) (w : World) :
  log (snd (getTokenInfo tokenAddress w)) =
  match tokenList w !! Some tokenAddress with
  | Some _ => log w
  | None => log w ++ [CallDecimals tokenAddress; CallSymbol tokenAddress]
  end.
Proof.
  destruct (tokenList w !! Some tokenAddress) as [entry|] eqn:Hlook.
  - rewrite (getTokenInfo_listed _ _ _ Hlook). reflexivity.
  - rewrite (getTokenInfo_unlisted _ _ Hlook).
    destruct (ERC20.decimals (erc20Instance tokenAddress)); reflexivity.
Qed.

(** X4. What [getTokenInfo] answers is what the map holds for the address
    when the call is over: an entry that is returned is in the map, and
    [undefined] is returned only when the map still has none. *)
Theorem getTokenInfo_answer_is_lookup (tokenAddress : string) (w : World) :
  fst (getTokenInfo tokenAddress w) =
  Ok (tokenList (snd (getTokenInfo tokenAddress w)) !! Some tokenAddress).
Proof.
  rewrite getTokenInfo_result, getTokenInfo_map.
  destruct (tokenList w !! Some tokenAddress) as [entry|] eqn:Hlook.
  - rewrite Hlook. reflexivity.
  - destruct (ERC20.decimals (erc20Instance tokenAddress)).
    + rewrite lookup_insert_eq. reflexivity.
    + rewrite Hlook. reflexivity.
Qed.

(** X5. After a call that returned an entry, the same call again returns
    the same entry from the map: no contract call is made and nothing
    changes. *)
Theorem getTokenInfo_repeat (tokenAddress : string) (w : World)
        (entry : MinimalTokenInfo) :
  fst (getTokenInfo tokenAddress w) = Ok (Some entry) ->
  getTokenInfo tokenAddress (snd (getTokenInfo tokenAddress w)) =
  (Ok (Some entry), snd (getTokenInfo tokenAddress w)).
Proof.
  intros Hfirst. apply getTokenInfo_listed.
  pose proof (getTokenInfo_answer_is_lookup tokenAddress w) as Hanswer.
  rewrite Hfirst in Hanswer. injection Hanswer as <-. reflexivity.
Qed.

(** X6. A failure is not remembered: for an address that is not in the
    map and whose [decimals] call fails, a second call asks the contract
    again. *)
Theorem getTokenInfo_failure_not_cached
        (tokenAddress : string) (w : World) (reason : exn) :
  tokenList w !! Some tokenAddress = None ->
  ERC20.decimals (erc20Instance tokenAddress) = Throw reason ->
  getTokenInfo tokenAddress (snd (getTokenInfo tokenAddress w)) =
  ( Ok None,
    {| tokenList := tokenList w;
       log := log w ++ [CallDecimals tokenAddress; CallSymbol tokenAddress;
                        CallDecimals tokenAddress; CallSymbol tokenAddress] |} ).
Proof.
  intros Hout Hd.
  rewrite (getTokenInfo_unlisted _ _ Hout), Hd. cbn [snd].
  rewrite getTokenInfo_unlisted by exact Hout.
  rewrite Hd. unfold queried. cbn [tokenList log].
  rewrite <- app_assoc. reflexivity.
Qed.

(** X7. [getTokenInfo] never throws, whatever the contract calls do; it
    removes and changes no entry of the map, and it only adds to the
    trace. *)
Theorem getTokenInfo_never_throws (tokenAddress : string) (w : World) :
  (exists answer, fst (getTokenInfo tokenAddress w) = Ok answer) /\
  tokenList w ⊆ tokenList (snd (getTokenInfo tokenAddress w)) /\
  log w `prefix_of` log (snd (getTokenInfo tokenAddress w)).
Proof.
  split; [ | split ].
  - rewrite getTokenInfo_result. eauto.
  - rewrite getTokenInfo_map.
    destruct (tokenList w !! Some tokenAddress) as [entry|] eqn:Hlook;
      [ reflexivity | ].
    destruct (ERC20.decimals (erc20Instance tokenAddress)); [ | reflexivity ].
    apply insert_subseteq, Hlook.
  - rewrite getTokenInfo_log.
    destruct (tokenList w !! Some tokenAddress); [ reflexivity | ].
    apply prefix_app_r. reflexivity.
Qed.

(** X8. The map is looked up with the address as it is spelled.  In a map
    that [tokenMap] built, a spelling that differs from its checksum is no
    key, so [getTokenInfo] asks the contract for it, also when the token
    is listed under the checksum. *)
Theorem getTokenInfo_misses_other_spelling
        (tokens : list TokenInfo.t) (m : TokenMap)
        (tokenAddress key : string) (trace : list Event) :
  (forall a c, getAddress a = Some c -> getAddress c = Some c) ->
  tokenMap tokens = Ok m ->
  getAddress tokenAddress = Some key ->
  tokenAddress <> key ->
  m !! Some tokenAddress = None /\
  log (snd (getTokenInfo tokenAddress {| tokenList := m; log := trace |})) =
    trace ++ [CallDecimals tokenAddress; CallSymbol tokenAddress].
Proof.
  intros Hidem Hm Hkey Hne.
  assert (Hout : m !! Some tokenAddress = None).
  { destruct (m !! Some tokenAddress) as [entry|] eqn:Hlook; [ | reflexivity ].
    destruct (tokenMap_keys_checksummed _ _ Hidem Hm _ _ Hlook)
      as (a & [= <-] & Hfix).
    congruence. }
  split; [ exact Hout | ].
  rewrite getTokenInfo_log. cbn [tokenList log]. rewrite Hout. reflexivity.
Qed.

(** X9. A token of the list is found under the checksum of its address:
    on the map that [tokenMap] built, [getTokenInfo] of that checksum
    returns an entry of the list with that checksum, without a contract
    call. *)
Theorem getTokenInfo_finds_listed
        (tokens : list TokenInfo.t) (m : TokenMap)
        (token : TokenInfo.t) (key : string) (trace : list Event) :
  tokenMap tokens = Ok m ->
  token ∈ tokens ->
  getAddress (TokenInfo.address token) = Some key ->
  exists listed,
    listed ∈ tokens /\
    getAddress (TokenInfo.address listed) = Some key /\
    getTokenInfo key {| tokenList := m; log := trace |} =
      (Ok (Some (minimal listed)), {| tokenList := m; log := trace |}).
Proof.
  intros Hm Hin Hkey.
  destruct (tokenMap_loop_covers _ _ _ Hm token Hin) as (key' & Hkey' & [entry Hentry]).
  assert (key' = key) as -> by congruence.
  destruct (tokenMap_loop_entries _ _ _ Hm _ _ Hentry)
    as [Hempty | (listed & k & Hlisted & -> & Hk & [= <-])].
  { rewrite lookup_empty in Hempty. discriminate. }
  exists listed. split; [ exact Hlisted | split; [ exact Hk | ] ].
  apply getTokenInfo_listed. exact Hentry.
Qed.

(** X10. Two calls for different addresses do not disturb each other:
    each answers as it would alone, and the map is the same in either
    order. *)
Theorem getTokenInfo_commute (a b : string) (w : World) :
  a <> b ->
  let wa := snd (getTokenInfo a w) in
  let wb := snd (getTokenInfo b w) in
  fst (getTokenInfo b wa) = fst (getTokenInfo b w) /\
  fst (getTokenInfo a wb) = fst (getTokenInfo a w) /\
  tokenList (snd (getTokenInfo b wa)) = tokenList (snd (getTokenInfo a wb)).
Proof.
  intros Hne wa wb.
  assert (Hb : tokenList wa !! Some b = tokenList w !! Some b).
  { unfold wa. rewrite getTokenInfo_map.
    destruct (tokenList w !! Some a); [ reflexivity | ].
    destruct (ERC20.decimals (erc20Instance a)); [ | reflexivity ].
    apply lookup_insert_ne. congruence. }
  assert (Ha : tokenList wb !! Some a = tokenList w !! Some a).
  { unfold wb. rewrite getTokenInfo_map.
    destruct (tokenList w !! Some b); [ reflexivity | ].
    destruct (ERC20.decimals (erc20Instance b)); [ | reflexivity ].
    apply lookup_insert_ne. congruence. }
  split; [ | split ].
  - rewrite !getTokenInfo_result, Hb. reflexivity.
  - rewrite !getTokenInfo_result, Ha. reflexivity.
  - rewrite (getTokenInfo_map b wa), (getTokenInfo_map a wb), Hb, Ha.
    unfold wa, wb. rewrite !getTokenInfo_map.
    destruct (tokenList w !! Some a), (tokenList w !! Some b);
      try reflexivity;
      destruct (ERC20.decimals (erc20Instance a));
      destruct (ERC20.decimals (erc20Instance b)); try reflexivity.
    apply insert_insert_ne. congruence.
Qed.

Lemma networkMap_lookup (chainId : Z) :
  networkMap !! chainId = None <-> chainId <> 1 /\ chainId <> 4 /\ chainId <> 100.
Proof.
  unfold networkMap. simpl. split.
  - intros Hnone. repeat split; intros ->;
      vm_compute in Hnone; discriminate.
  - intros (H1 & H4 & H100).
    rewrite !lookup_insert_ne by congruence. apply lookup_empty.
Qed.

(** X11. [fetchTokenList] writes to the console exactly for the chain ids
    that [networkMap] has no name for; so the name in the message is
    never that of a network, it is [undefined]. *)
Theorem fetchTokenList_console_iff_unnamed (chainId : Z) (w : World) :
  (forall message,
      log (snd (fetchTokenList chainId w)) = log w ++ [ConsoleError message] ->
      networkMap !! chainId = None /\
      message = "Unimplemented token list for undefined network"%string) /\
  (networkMap !! chainId = None ->
   log (snd (fetchTokenList chainId w)) =
     log w ++ [ConsoleError "Unimplemented token list for undefined network"]).
Proof.
  split.
  - intros message Hlog.
    destruct (decide (chainId = 1)) as [-> | H1].
    { rewrite fetchTokenList_mainnet in Hlog. cbn [snd log] in Hlog.
      apply app_inv_head in Hlog. discriminate. }
    destruct (decide (chainId = 4)) as [-> | H4].
    { rewrite fetchTokenList_rinkeby in Hlog. cbn [snd] in Hlog.
      rewrite <- (app_nil_r (log w)) in Hlog at 1.
      apply app_inv_head in Hlog. discriminate. }
    destruct (decide (chainId = 100)) as [-> | H100].
    { rewrite fetchTokenList_xdai in Hlog. cbn [snd] in Hlog.
      rewrite <- (app_nil_r (log w)) in Hlog at 1.
      apply app_inv_head in Hlog. discriminate. }
    split; [ apply networkMap_lookup; auto | ].
    rewrite fetchTokenList_other in Hlog by assumption. cbn [snd log] in Hlog.
    apply app_inv_head in Hlog. congruence.
  - intros Hnone. apply networkMap_lookup in Hnone as (H1 & H4 & H100).
    rewrite fetchTokenList_other by assumption. reflexivity.
Qed.

End GetTokenInfoAlgebra.

(* ===================================================================== *)
(** ** More about [useTokenList] *)
(* ===================================================================== *)

Section UseTokenListInvariant.
Context `{Imports}.

Local Open Scope nat_scope.

Lemma deps_step_keeps (s : Component) (l : Label) :
  deps (step s l) = current_chain (deps s) [l].
Proof.
  destruct l as [chainId | j | ]; simpl.
  - unfold render. destruct (decide (deps s = Some chainId)) as [-> | _];
      reflexivity.
  - apply deps_settle.
  - reflexivity.
Qed.

Lemma current_chain_app (d : option Z) (t1 t2 : list Label) :
  current_chain d (t1 ++ t2) = current_chain (current_chain d t1) t2.
Proof.
  revert d. induction t1 as [|l t1 IH]; intros d; simpl; [ reflexivity | ].
  destruct l; apply IH.
Qed.

Lemma deps_run (s : Component) (trace : list Label) :
  deps (run s trace) = current_chain (deps s) trace.
Proof.
  revert s. induction trace as [|l trace IH]; intros s; simpl; [ reflexivity | ].
  rewrite IH, deps_step_keeps. simpl. destruct l; reflexivity.
Qed.

(** *** The invariant *)

Lemma hook_invariant_initial : hook_invariant initial.
Proof.
  unfold hook_invariant. simpl.
  split; [ | split; [ | split; [ | split ] ] ]; try discriminate; auto.
Qed.

(** A change of the runs in place, which mounts nothing and leaves the
    promises as they are, keeps the invariant. *)
Lemma hook_invariant_alter (f : Effect -> Effect) (j : nat) (s s' : Component) :
  (forall e, isMounted (f e) = true -> isMounted e = true) ->
  (forall e, promise (f e) = promise e) ->
  tokenList_state s' = tokenList_state s ->
  isLoading s' = isLoading s ->
  deps s' = deps s ->
  effects s' = alter f j (effects s) ->
  hook_invariant s -> hook_invariant s'.
Proof.
  intros Hmount Hpromise Hlist Hloading Hdeps Heffects
         (Hlatest & Hnone & Hsome & Hfresh & Hfetched).
  unfold hook_invariant.
  rewrite Hlist, Hloading, Hdeps, Heffects, length_alter.
  split; [ | split; [ | split; [ | split ] ] ].
  - intros i e Hi He.
    destruct (decide (j = i)) as [-> | Hne].
    + rewrite list_lookup_alter_eq in Hi.
      destruct (effects s !! i) as [e0|] eqn:Hi0; [ | discriminate ].
      injection Hi as <-. apply (Hlatest i e0 Hi0), Hmount, He.
    + rewrite list_lookup_alter_ne in Hi by exact Hne.
      apply (Hlatest i e Hi He).
  - intros Hd. destruct (Hnone Hd) as [-> ->]. auto.
  - intros c Hd. destruct (Hsome c Hd) as (e & He & Hp).
    destruct (decide (j = pred (length (effects s)))) as [-> | Hne].
    + exists (f e). rewrite list_lookup_alter_eq, He, Hpromise. auto.
    + exists e. rewrite list_lookup_alter_ne by exact Hne. auto.
  - exact Hfresh.
  - exact Hfetched.
Qed.

Lemma hook_invariant_cleanup (s : Component) :
  hook_invariant s -> hook_invariant (cleanup s).
Proof.
  apply (hook_invariant_alter callback (pred (length (effects s))));
    try reflexivity.
  discriminate.
Qed.

Lemma hook_invariant_mark_settled (j : nat) (s : Component) :
  hook_invariant s -> hook_invariant (mark_settled j s).
Proof.
  apply (hook_invariant_alter
           (fun e => {| isMounted := isMounted e; promise := promise e;
                        settled := true |}) j); try reflexivity.
  auto.
Qed.

(** After the cleanup no run is mounted. *)
Lemma cleanup_unmounts_all (s : Component) (i : nat) (e : Effect) :
  hook_invariant s ->
  effects (cleanup s) !! i = Some e -> isMounted e = false.
Proof.
  intros (Hlatest & _) Hi. simpl in Hi.
  destruct (decide (pred (length (effects s)) = i)) as [<- | Hne].
  - rewrite list_lookup_alter_eq in Hi.
    destruct (effects s !! pred (length (effects s))); [ | discriminate ].
    injection Hi as <-. reflexivity.
  - rewrite list_lookup_alter_ne in Hi by exact Hne.
    destruct (isMounted e) eqn:He; [ | reflexivity ].
    specialize (Hlatest i e Hi He). lia.
Qed.

Lemma hook_invariant_effect (chainId : Z) (s : Component) :
  hook_invariant s -> hook_invariant (effect chainId (cleanup s)).
Proof.
  intros Hinv.
  pose proof (cleanup_unmounts_all s) as Hunmounted.
  destruct (hook_invariant_cleanup s Hinv) as (_ & _ & _ & _ & Hfetched).
  set (n := length (effects (cleanup s))).
  assert (Hnew : effects (effect chainId (cleanup s)) !! n =
                 Some {| isMounted := true;
                         promise := fst (fetchTokenList chainId pristine);
                         settled := false |}).
  { apply list_lookup_middle. reflexivity. }
  assert (Hlen : length (effects (effect chainId (cleanup s))) = S n).
  { cbn [effect effects]. rewrite length_app. cbn [length]. unfold n. lia. }
  unfold hook_invariant. rewrite Hlen.
  split; [ | split; [ | split; [ | split ] ] ].
  - intros i e Hi He. cbn [effect effects] in Hi.
    apply lookup_app_Some in Hi as [Hi | [Hge Hi]].
    + rewrite (Hunmounted i e Hinv Hi) in He. discriminate.
    + fold n in Hge, Hi.
      destruct (i - n) as [|k] eqn:Hk; [ lia | ].
      simpl in Hi. rewrite lookup_nil in Hi. discriminate.
  - discriminate.
  - intros c [= <-]. eexists. split; [ exact Hnew | reflexivity ].
  - discriminate.
  - exact Hfetched.
Qed.

Lemma hook_invariant_settle (j : nat) (s : Component) :
  hook_invariant s -> hook_invariant (settle j s).
Proof.
  intros Hinv. unfold settle.
  destruct (effects s !! j) as [e|] eqn:Hj; [ | exact Hinv ].
  destruct (settled e); [ exact Hinv | ].
  pose proof (hook_invariant_mark_settled j s Hinv) as Hmarked.
  destruct (promise e) as [result|] eqn:Hp; [ | exact Hmarked ].
  unfold then_callback. destruct (isMounted e) eqn:He; [ | exact Hmarked ].
  destruct Hinv as (Hlatest & Hnone & Hsome & _ & _).
  destruct Hmarked as (Hlatest' & _ & Hsome' & _ & _).
  assert (Hlast : j = pred (length (effects s))).
  { specialize (Hlatest j e Hj He). lia. }
  assert (Hdeps : exists c, deps s = Some c /\
                            fst (fetchTokenList c pristine) = Ok result).
  { destruct (deps s) as [c|] eqn:Hd.
    - exists c. split; [ reflexivity | ].
      destruct (Hsome c eq_refl) as (e' & He' & Hp').
      rewrite <- Hlast, Hj in He'. injection He' as <-. congruence.
    - destruct (Hnone eq_refl) as [Hnil _]. rewrite Hnil, lookup_nil in Hj.
      discriminate. }
  destruct Hdeps as (c & Hd & Hfetch).
  unfold hook_invariant. cbn [tokenList_state isLoading deps effects].
  split; [ exact Hlatest' | ].
  split; [ simpl; rewrite Hd; discriminate | ].
  split; [ exact Hsome' | ].
  split; [ | right; exists c; exact Hfetch ].
  intros c' Hd' _. simpl in Hd'. rewrite Hd in Hd'. injection Hd' as <-.
  exact Hfetch.
Qed.

Lemma hook_invariant_step (s : Component) (l : Label) :
  hook_invariant s -> hook_invariant (step s l).
Proof.
  intros Hinv. destruct l as [chainId | j | ]; simpl.
  - unfold render. destruct (decide (deps s = Some chainId)); [ exact Hinv | ].
    apply hook_invariant_effect, Hinv.
  - apply hook_invariant_settle, Hinv.
  - apply hook_invariant_cleanup, Hinv.
Qed.

Lemma hook_invariant_run (s : Component) (trace : list Label) :
  hook_invariant s -> hook_invariant (run s trace).
Proof.
  revert s. induction trace as [|l trace IH]; intros s Hinv; simpl.
  - exact Hinv.
  - apply IH, hook_invariant_step, Hinv.
Qed.

Lemma hook_invariant_reachable (trace : list Label) :
  hook_invariant (run initial trace).
Proof. apply hook_invariant_run, hook_invariant_initial. Qed.

(** A settlement changes the list or the loading flag only through the
    [then] callback of a mounted run whose promise is fulfilled. *)
Lemma settle_changes (j : nat) (s : Component) :
  (tokenList_state (settle j s) = tokenList_state s /\
   isLoading (settle j s) = isLoading s) \/
  exists e result,
    effects s !! j = Some e /\ isMounted e = true /\ settled e = false /\
    promise e = Ok result /\
    tokenList_state (settle j s) = result /\ isLoading (settle j s) = false.
Proof.
  unfold settle. destruct (effects s !! j) as [e|] eqn:Hj; [ | auto ].
  destruct (settled e) eqn:Hs; [ auto | ].
  destruct (promise e) as [result|] eqn:Hp; [ | auto ].
  unfold then_callback. destruct (isMounted e) eqn:He; [ | auto ].
  right. exists e, result. auto 10.
Qed.

(** X12. No stale list.  Before the first render the list is empty; from
    then on, whenever the hook is not loading, its list is the one that
    [fetchTokenList] returns for the chain id of the latest render. *)
Theorem useTokenList_no_stale_list (trace : list Label) :
  let s := run initial trace in
  (current_chain None trace = None -> tokenList_state s = ∅) /\
  (forall c, current_chain None trace = Some c -> isLoading s = false ->
             fst (fetchTokenList c pristine) = Ok (tokenList_state s)).
Proof.
  intros s.
  destruct (hook_invariant_reachable trace) as (_ & Hnone & _ & Hfresh & _).
  fold s in Hnone, Hfresh.
  assert (Hdeps : deps s = current_chain None trace) by apply deps_run.
  rewrite <- Hdeps. split.
  - intros Hd. apply (Hnone Hd).
  - exact Hfresh.
Qed.

(** X13. At most one run of the effect is mounted, the latest; after the
    unmount none is. *)
Theorem useTokenList_single_mounted (trace : list Label) :
  let s := run initial trace in
  (forall i e, effects s !! i = Some e -> isMounted e = true ->
               S i = length (effects s)) /\
  (forall i e, effects (step s Unmount) !! i = Some e -> isMounted e = false).
Proof.
  intros s. pose proof (hook_invariant_reachable trace) as Hinv. fold s in Hinv.
  split.
  - apply Hinv.
  - intros i e. apply cleanup_unmounts_all, Hinv.
Qed.

(** X14. A rejected promise is not handled: when [fetchTokenList] throws
    for the chain id of a render (as it does for an unsupported network),
    the hook keeps loading and keeps its list, whatever settles and also
    after the unmount, until a render with another chain id. *)
Theorem useTokenList_rejection_keeps_loading
        (trace later : list Label) (chainId : Z) (reason : exn) :
  let s0 := run initial trace in
  deps s0 <> Some chainId ->
  fst (fetchTokenList chainId pristine) = Throw reason ->
  Forall (keeps_network chainId) later ->
  isLoading (run s0 (Render chainId :: later)) = true /\
  tokenList_state (run s0 (Render chainId :: later)) = tokenList_state s0.
Proof.
  intros s0 Hchanged Hthrow Hlater.
  pose proof (hook_invariant_reachable trace) as Hinv0. fold s0 in Hinv0.
  cbn [run fold_left]. fold (run (step s0 (Render chainId)) later).
  set (s1 := step s0 (Render chainId)).
  assert (Hstart : hook_invariant s1 /\ deps s1 = Some chainId /\
                   isLoading s1 = true /\
                   tokenList_state s1 = tokenList_state s0).
  { split; [ apply hook_invariant_step, Hinv0 | ].
    unfold s1. simpl. unfold render.
    destruct (decide (deps s0 = Some chainId)); [ contradiction | ].
    auto. }
  clearbody s1. clear Hinv0 Hchanged.
  revert s1 Hstart. induction Hlater as [|l later Hl _ IH];
    intros s1 (Hinv & Hdeps & Hloading & Hlist); simpl.
  - auto.
  - apply IH. split; [ apply hook_invariant_step, Hinv | ].
    destruct l as [c | j | ]; simpl in *.
    + subst c. unfold render.
      destruct (decide (deps s1 = Some chainId)); [ auto | contradiction ].
    + rewrite deps_settle. split; [ exact Hdeps | ].
      destruct (settle_changes j s1)
        as [[-> ->] | (e & result & Hj & He & _ & Hp & _)]; [ auto | ].
      exfalso. destruct Hinv as (Hlatest & _ & Hsome & _).
      destruct (Hsome chainId Hdeps) as (e' & He' & Hp').
      specialize (Hlatest j e Hj He).
      replace (pred (length (effects s1))) with j in He' by lia.
      rewrite Hj in He'. injection He' as <-. congruence.
    + auto.
Qed.

(** X15. The list of the current network arrives: after a render with a
    new chain id for which [fetchTokenList] returns a map, once the
    promise of that run settles, the list is that map and the hook is not
    loading; settlements of earlier runs in between change nothing of
    this. *)
Theorem useTokenList_delivers
        (trace later : list Label) (chainId : Z) (m : TokenMap) :
  let s0 := run initial trace in
  let n := length (effects s0) in
  deps s0 <> Some chainId ->
  fst (fetchTokenList chainId pristine) = Ok m ->
  Forall (leaves_pending chainId n) later ->
  tokenList_state (run s0 (Render chainId :: later ++ [Settle n])) = m /\
  isLoading (run s0 (Render chainId :: later ++ [Settle n])) = false.
Proof.
  intros s0 n Hchanged Hfetch Hlater.
  cbn [run fold_left]. fold (run (step s0 (Render chainId)) (later ++ [Settle n])).
  rewrite run_app.
  set (s1 := step s0 (Render chainId)).
  set (pending := {| isMounted := true; promise := Ok m; settled := false |}).
  assert (Hstart : deps s1 = Some chainId /\ effects s1 !! n = Some pending).
  { unfold s1. simpl. unfold render.
    destruct (decide (deps s0 = Some chainId)); [ contradiction | ].
    split; [ reflexivity | ].
    cbn [effect effects]. rewrite Hfetch.
    apply list_lookup_middle. rewrite length_effects_cleanup. reflexivity. }
  clearbody s1. clear Hchanged.
  revert s1 Hstart. induction Hlater as [|l later Hl _ IH];
    intros s1 (Hdeps & Hn).
  - simpl. unfold settle. rewrite Hn. simpl. auto.
  - change (run s1 (l :: later)) with (run (step s1 l) later).
    apply IH. destruct l as [c | j | ]; simpl in *.
    + subst c. unfold render.
      destruct (decide (deps s1 = Some chainId)); [ auto | contradiction ].
    + rewrite deps_settle. split; [ exact Hdeps | ].
      destruct (effects_settle j s1) as [-> | ->]; [ exact Hn | ].
      simpl. rewrite list_lookup_alter_ne by exact Hl. exact Hn.
    + contradiction.
Qed.

(** X16. Every key of the list of the hook is a checksummed address, in
    every state that the hook reaches. *)
Theorem useTokenList_keys_checksummed (trace : list Label) :
  (forall a c, getAddress a = Some c -> getAddress c = Some c) ->
  keys_checksummed (tokenList_state (run initial trace)).
Proof.
  intros Hidem.
  destruct (hook_invariant_reachable trace) as (_ & _ & _ & _ & Hfetched).
  destruct Hfetched as [-> | (c & Hfetch)].
  - intros key entry Hin. rewrite lookup_empty in Hin. discriminate.
  - destruct (fetchTokenList c pristine) as [r w'] eqn:Hrun.
    simpl in Hfetch. subst r.
    destruct (fetchTokenList_built _ _ _ _ Hrun) as [tokens Htokens].
    apply (tokenMap_keys_checksummed _ _ Hidem Htokens).
Qed.

End UseTokenListInvariant.

(* ===================================================================== *)
(** ** These statements at work in the concrete environment *)
(* ===================================================================== *)

Module Scenarios.
Import Example.

Lemma tokenMap_throws_at_first_rejected_witness :
  Forall (@accepted imports) [alpha] /\
  @getAddress imports (TokenInfo.address broken) = None /\
  @tokenMap imports ([alpha] ++ broken :: [gamma]) =
    Throw (InvalidAddress "0x5AAeb6053F3E94C9b9A09f33669435E7Ef1BeAed").
Proof.
  assert (Hgood : Forall (@accepted imports) [alpha]).
  { repeat constructor. eexists. vm_compute. reflexivity. }
  assert (Hbad : @getAddress imports (TokenInfo.address broken) = None)
    by (vm_compute; reflexivity).
  split; [ exact Hgood | split; [ exact Hbad | ] ].
  exact (@tokenMap_throws_at_first_rejected imports [alpha] [gamma] broken
           Hgood Hbad).
Defined.

Lemma tokenMap_size_distinct_witness :
  NoDup (map (fun t => @getAddress imports (TokenInfo.address t)) [alpha; gamma]) /\
  exists m, @tokenMap imports [alpha; gamma] = Ok m /\ size m = 2%nat.
Proof.
  assert (Hnodup : NoDup (map (fun t => @getAddress imports (TokenInfo.address t))
                              [alpha; gamma])).
  { apply NoDup_cons. split; [ | apply NoDup_singleton ].
    intros Hin. apply list_elem_of_singleton in Hin.
    vm_compute in Hin. discriminate. }
  split; [ exact Hnodup | ].
  destruct (@tokenMap imports [alpha; gamma]) as [m|e] eqn:Hm.
  - exists m. split; [ reflexivity | ].
    exact (proj2 (@tokenMap_size_distinct imports [alpha; gamma] m Hm) Hnodup).
  - vm_compute in Hm. discriminate.
Defined.

Lemma getTokenInfo_repeat_witness :
  fst (@getTokenInfo imports lower empty_world) =
    Ok (Some (@resolved imports lower 18)) /\
  @getTokenInfo imports lower (snd (@getTokenInfo imports lower empty_world)) =
    (Ok (Some (@resolved imports lower 18)),
     snd (@getTokenInfo imports lower empty_world)).
Proof.
  assert (Hfirst : fst (@getTokenInfo imports lower empty_world) =
                   Ok (Some (@resolved imports lower 18)))
    by (vm_compute; reflexivity).
  split; [ exact Hfirst | ].
  exact (@getTokenInfo_repeat imports lower empty_world _ Hfirst).
Defined.

Lemma getTokenInfo_failure_not_cached_witness :
  tokenList empty_world !! Some other = None /\
  ERC20.decimals (@erc20Instance imports other) =
    Throw (Rejected "call revert exception") /\
  log (snd (@getTokenInfo imports other
              (snd (@getTokenInfo imports other empty_world)))) =
    [CallDecimals other; CallSymbol other; CallDecimals other; CallSymbol other].
Proof.
  assert (Hout : tokenList empty_world !! Some other = None)
    by apply lookup_empty.
  split; [ exact Hout | split; [ reflexivity | ] ].
  rewrite (@getTokenInfo_failure_not_cached imports other empty_world
             (Rejected "call revert exception") Hout eq_refl).
  reflexivity.
Defined.

Lemma getTokenInfo_misses_other_spelling_witness :
  @getAddress imports lower = Some mixed /\
  lower <> mixed /\
  exists m,
    @tokenMap imports [alpha; beta] = Ok m /\
    is_Some (m !! Some mixed) /\
    m !! Some lower = None /\
    log (snd (@getTokenInfo imports lower {| tokenList := m; log := [] |})) =
      [CallDecimals lower; CallSymbol lower].
Proof.
  assert (Hkey : @getAddress imports lower = Some mixed)
    by (vm_compute; reflexivity).
  assert (Hne : lower <> mixed) by discriminate.
  split; [ exact Hkey | split; [ exact Hne | ] ].
  destruct (@tokenMap imports [alpha; beta]) as [m|e] eqn:Hm.
  - exists m. split; [ reflexivity | ].
    split.
    + vm_compute in Hm. injection Hm as <-. eexists. vm_compute. reflexivity.
    + exact (@getTokenInfo_misses_other_spelling imports [alpha; beta] m
               lower mixed [] EthersFacts.getAddress_idempotent Hm Hkey Hne).
  - vm_compute in Hm. discriminate.
Defined.

Lemma getTokenInfo_finds_listed_witness :
  alpha ∈ [alpha; beta] /\
  @getAddress imports (TokenInfo.address alpha) = Some mixed /\
  exists m listed,
    @tokenMap imports [alpha; beta] = Ok m /\
    fst (@getTokenInfo imports mixed {| tokenList := m; log := [] |}) =
      Ok (Some (minimal listed)).
Proof.
  assert (Hin : alpha ∈ [alpha; beta]) by left.
  assert (Hkey : @getAddress imports (TokenInfo.address alpha) = Some mixed)
    by (vm_compute; reflexivity).
  split; [ exact Hin | split; [ exact Hkey | ] ].
  destruct (@tokenMap imports [alpha; beta]) as [m|e] eqn:Hm.
  - destruct (@getTokenInfo_finds_listed imports [alpha; beta] m alpha mixed []
                Hm Hin Hkey) as (listed & _ & _ & Hfound).
    exists m, listed. split; [ reflexivity | ].
    rewrite Hfound. reflexivity.
  - vm_compute in Hm. discriminate.
Defined.

Lemma getTokenInfo_commute_witness :
  lower <> mixed /\
  tokenList (snd (@getTokenInfo imports mixed
                    (snd (@getTokenInfo imports lower empty_world)))) =
  tokenList (snd (@getTokenInfo imports lower
                    (snd (@getTokenInfo imports mixed empty_world)))).
Proof.
  assert (Hne : lower <> mixed) by discriminate.
  split; [ exact Hne | ].
  exact (proj2 (proj2 (@getTokenInfo_commute imports lower mixed empty_world Hne))).
Defined.

Lemma fetchTokenList_console_iff_unnamed_witness :
  networkMap !! 5 = None /\
  log (snd (@fetchTokenList imports 5 empty_world)) =
    [ConsoleError "Unimplemented token list for undefined network"].
Proof.
  assert (Hnone : networkMap !! 5 = None) by (vm_compute; reflexivity).
  split; [ exact Hnone | ].
  exact (proj2 (@fetchTokenList_console_iff_unnamed imports 5 empty_world) Hnone).
Defined.

Lemma useTokenList_no_stale_list_witness :
  current_chain None [Render 4; Render 1; Settle 0; Settle 1] = Some 1 /\
  isLoading (@run imports initial [Render 4; Render 1; Settle 0; Settle 1]) = false /\
  fst (@fetchTokenList imports 1 pristine) =
    Ok (tokenList_state
          (@run imports initial [Render 4; Render 1; Settle 0; Settle 1])).
Proof.
  assert (Hchain : current_chain None [Render 4; Render 1; Settle 0; Settle 1]
                   = Some 1) by reflexivity.
  assert (Hloaded :
    isLoading (@run imports initial [Render 4; Render 1; Settle 0; Settle 1])
    = false) by (vm_compute; reflexivity).
  split; [ exact Hchain | split; [ exact Hloaded | ] ].
  exact (proj2 (@useTokenList_no_stale_list imports
                  [Render 4; Render 1; Settle 0; Settle 1]) 1 Hchain Hloaded).
Defined.

Lemma useTokenList_single_mounted_witness :
  exists e,
    effects (@run imports initial [Render 4; Render 1]) !! 0%nat = Some e /\
    isMounted e = false.
Proof.
  destruct (effects (@run imports initial [Render 4; Render 1]) !! 0%nat)
    as [e|] eqn:He.
  - exists e. split; [ reflexivity | ].
    destruct (isMounted e) eqn:Hm; [ | reflexivity ].
    pose proof (proj1 (@useTokenList_single_mounted imports [Render 4; Render 1])
                      0%nat e He Hm) as Hlast.
    vm_compute in Hlast. discriminate.
  - vm_compute in He. discriminate.
Defined.

Lemma useTokenList_rejection_keeps_loading_witness :
  deps (@run imports initial []) <> Some 5 /\
  fst (@fetchTokenList imports 5 pristine) =
    Throw (Error "Unimplemented token list for undefined network") /\
  Forall (keeps_network 5) [Settle 0; Unmount; Render 5] /\
  isLoading (@run imports (@run imports initial [])
                  (Render 5 :: [Settle 0; Unmount; Render 5])) = true.
Proof.
  assert (Hchanged : deps (@run imports initial []) <> Some 5) by discriminate.
  assert (Hthrow : fst (@fetchTokenList imports 5 pristine) =
            Throw (Error "Unimplemented token list for undefined network"))
    by (vm_compute; reflexivity).
  assert (Hlater : Forall (keeps_network 5) [Settle 0; Unmount; Render 5]).
  { repeat constructor. }
  split; [ exact Hchanged | split; [ exact Hthrow | split; [ exact Hlater | ] ] ].
  exact (proj1 (@useTokenList_rejection_keeps_loading imports []
                  [Settle 0; Unmount; Render 5] 5 _ Hchanged Hthrow Hlater)).
Defined.

Lemma useTokenList_delivers_witness :
  deps (@run imports initial [Render 4]) <> Some 1 /\
  Forall (leaves_pending 1 1) [Settle 0; Render 1] /\
  exists m,
    fst (@fetchTokenList imports 1 pristine) = Ok m /\
    tokenList_state
      (@run imports (@run imports initial [Render 4])
            (Render 1 :: [Settle 0; Render 1] ++ [Settle 1])) = m.
Proof.
  assert (Hchanged : deps (@run imports initial [Render 4]) <> Some 1)
    by (vm_compute; discriminate).
  assert (Hlater : Forall (leaves_pending 1 1) [Settle 0; Render 1]).
  { repeat constructor. simpl. lia. }
  split; [ exact Hchanged | split; [ exact Hlater | ] ].
  destruct (fst (@fetchTokenList imports 1 pristine)) as [m|e] eqn:Hfetch.
  - exists m. split; [ reflexivity | ].
    exact (proj1 (@useTokenList_delivers imports [Render 4]
                    [Settle 0; Render 1] 1 m Hchanged Hfetch Hlater)).
  - vm_compute in Hfetch. discriminate.
Defined.

Lemma useTokenList_keys_checksummed_witness :
  (forall a c, @getAddress imports a = Some c -> @getAddress imports c = Some c) /\
  @keys_checksummed imports
    (tokenList_state (@run imports initial [Render 4; Settle 0])).
Proof.
  split; [ exact EthersFacts.getAddress_idempotent | ].
  exact (@useTokenList_keys_checksummed imports [Render 4; Settle 0]
           EthersFacts.getAddress_idempotent).
Defined.

End Scenarios.
